(** * Lloyd relaxation (tess/lloyd.pyx): a shallow embedding and its properties

    The Cython routine [lloyd] of [src/tess/lloyd.pyx] is embedded as a pure
    function over lists and, to speak of the caller's arrays, a second time
    over a memory of buffers; a simulation theorem relates the two.  C
    [double]s are Rocq's primitive IEEE-754 binary64 floats, so that sums,
    products, quotients and the exact-zero test behave as they do in the
    compiled code (rounding, underflow, NaN, signed zeros).

    Typed memoryviews are lists; the file sets no compiler directive, so an
    indexed read or write out of bounds is the error [IndexError] (Cython's
    default [boundscheck=True]).  An in-place operator on an element of a
    memoryview compiles to the C operator on that element: [a[i] /= s] is
    the IEEE division, which for a zero divisor gives NaN or an infinity
    and raises nothing.  [.copy()] on a memoryview builds a Cython array,
    whose constructor refuses an extent of zero with [ValueError].

    [scipy.spatial.cKDTree] is a library outside the repository: the batch
    query [cKDTree(node_xy).query(xy, k=1)[1]] is a parameter [kd_query] of
    the development.  The [print] statement of every round writes to the
    standard output only and is left out. *)

From Stdlib Require Import ZArith Floats Lia.
From stdpp Require Import base option list gmap.

Local Open Scope Z_scope.

(** ** Errors and results *)

Inductive error : Type :=
  | IndexError          (* a memoryview index out of bounds *)
  | ValueError          (* a copy of a memoryview with an extent of zero *)
  | QueryError          (* the nearest-node library raised *)
  | TypeError           (* an argument is not a buffer of the declared type *)
  | OutOfFuel.          (* the embedding's round budget ran out; see [lloyd_fuel_suffices] *)

Inductive result (A : Type) : Type :=
  | Ok (a : A)
  | Err (e : error).
Arguments Ok {A} a.
Arguments Err {A} e.

(** The error monad: an exception raised by a statement ends the call. *)
#[global] Instance result_ret : MRet result := fun A a => Ok a.
#[global] Instance result_bind : MBind result := fun A B k r =>
  match r with
  | Ok a => k a
  | Err e => Err e
  end.

(** [a[i]] on a one-dimensional memoryview with bounds checking. *)
Definition get {A : Type} (a : list A) (i : nat) : result A :=
  match a !! i with
  | Some v => Ok v
  | None => Err IndexError
  end.

(** ** Numbers *)

(** A point or a node: one row [(x, y)] of an [(n, 2)] array of doubles. *)
Abbreviation point := (float * float)%type.

Definition fzero : float := 0%float.

(** Neither NaN nor an infinity. *)
Definition finite (x : float) : bool :=
  match Prim2SF x with
  | S754_zero _ | S754_finite _ _ _ => true
  | _ => false
  end.

(** C [long]: the counter [n_iters] wraps at 64 bits. *)
Definition wrap64 (z : Z) : Z := (z + 2 ^ 63) mod 2 ^ 64 - 2 ^ 63.

(** [np.zeros(n)] and [np.zeros((n, 2))]. *)
Definition zeros_long (n : nat) : list Z := replicate n 0.
Definition zeros_double (n : nat) : list float := replicate n fzero.
Definition zeros_xy (n : nat) : list point := replicate n (fzero, fzero).

(** ** One round of the loop body *)

(** The three arrays the accumulation loop fills. *)
Record accum : Type := Accum {
  node_population : list Z;
  weight_sum : list float;
  acc_xy : list point
}.

(** Body of [for i in xrange(n_points)] (lines 62-65).  A population is at
    most [n_points], so the [long] addition does not wrap. *)
Definition accumulate_point (xy : list point) (w : list float) (idx : list nat)
    (a : accum) (i : nat) : result accum :=
  j ← get idx i;
  c ← get (node_population a) j;
  let pop := <[j := c + 1]> (node_population a) in
  wi ← get w i;
  s ← get (weight_sum a) j;
  let ws := <[j := (s + wi)%float]> (weight_sum a) in
  p ← get xy i;
  n ← get (acc_xy a) j;
  let nx := (fst n + wi * fst p)%float in
  let ny := (snd n + wi * snd p)%float in
  Ok (Accum pop ws (<[j := (nx, ny)]> (acc_xy a))).

(** A [for] loop over a range whose body may raise. *)
Fixpoint for_each {S : Type} (body : S -> nat -> result S) (range : list nat) (s : S)
    : result S :=
  match range with
  | [] => Ok s
  | i :: range' => s' ← body s i; for_each body range' s'
  end.

(** Lines 58-65: fresh zeroed arrays, then the accumulation loop. *)
Definition accumulate (xy : list point) (w : list float) (idx : list nat)
    (n_nodes n_points : nat) : result accum :=
  for_each (accumulate_point xy w idx) (seq 0 n_points)
    (Accum (zeros_long n_nodes) (zeros_double n_nodes) (zeros_xy n_nodes)).

(** Body of the second loop (lines 66-74): divide by the weight sum when
    the node has members, otherwise store the origin. *)
Definition centroid_node (pop : list Z) (ws : list float) (nodes : list point)
    (i : nat) : result (list point) :=
  c ← get pop i;
  if 0 <? c then
    s ← get ws i;
    n ← get nodes i;
    Ok (<[i := ((fst n / s)%float, (snd n / s)%float)]> nodes)
  else
    _ ← get nodes i;
    Ok (<[i := (fzero, fzero)]> nodes).

Definition centroids (a : accum) (n_nodes : nat) : result (list point) :=
  for_each (centroid_node (node_population a) (weight_sum a)) (seq 0 n_nodes) (acc_xy a).

(** Body of the third loop (lines 78-81). *)
Definition displacement_node (orig new : list point) (delta : float) (i : nat)
    : result float :=
  o ← get orig i;
  n ← get new i;
  let dx := (fst o - fst n)%float in
  let dy := (snd o - snd n)%float in
  Ok (delta + (dx * dx + dy * dy))%float.

Definition displacement (orig new : list point) (n_nodes : nat) : result float :=
  for_each (displacement_node orig new) (seq 0 n_nodes) fzero.

(** The library call either returns the index array or raises. *)
Definition query_result (q : option (list nat)) : result (list nat) :=
  match q with
  | Some idx => Ok idx
  | None => Err QueryError
  end.

(** [a.copy()] on a two-dimensional memoryview (line 49).  The copy lives in
    a new Cython array, and the constructor of a Cython array raises
    [ValueError] for an extent that is not positive: an array of zero rows
    cannot be copied.  The rows have two columns throughout. *)
Definition copy_rows (a : list point) : result (list point) :=
  match a with
  | [] => Err ValueError
  | _ :: _ => Ok a
  end.

(** What one round leaves in the local variables. *)
Record round_out : Type := RoundOut {
  r_nodes : list point;   (* node_xy *)
  r_idx : list nat;       (* idx *)
  r_delta : float         (* delta *)
}.

Section Lloyd.

(** [kd_query nodes pts] is [cKDTree(nodes).query(pts, k=1)[1]]. *)
Variable kd_query : list point -> list point -> option (list nat).

Variable xy : list point.
Variable w : list float.

(** Lines 49-81, with [n_nodes] and [n_points] as computed at lines 42-43. *)
Definition lloyd_round (n_nodes : nat) (node_xy : list point) : result round_out :=
  let n_points := length xy in
  orig_node_xy ← copy_rows node_xy;
  idx ← query_result (kd_query node_xy xy);
  a ← accumulate xy w idx n_nodes n_points;
  new_xy ← centroids a n_nodes;
  delta ← displacement orig_node_xy new_xy n_nodes;
  Ok (RoundOut new_xy idx delta).

(** The local state at the [return]: the returned triple, and the loop
    counter, the snapshot and the displacement of the last round. *)
Record frame : Type := Frame {
  f_nodes : list point;
  f_idx : list nat;
  f_converged : bool;
  f_n_iters : Z;
  f_orig : list point;
  f_delta : float;
  f_rounds : nat    (* ghost: how many times the loop body ran *)
}.

(** The [while True] loop.  [fuel] bounds the number of further rounds;
    [rounds] counts the rounds already completed. *)
Fixpoint lloyd_loop (fuel : nat) (max_iters : Z) (n_nodes : nat)
    (n_iters : Z) (rounds : nat) (node_xy : list point) : result frame :=
  r ← lloyd_round n_nodes node_xy;
  if PrimFloat.eqb (r_delta r) fzero then
    Ok (Frame (r_nodes r) (r_idx r) true n_iters node_xy (r_delta r) (S rounds))
  else if n_iters >? max_iters then
    Ok (Frame (r_nodes r) (r_idx r) false n_iters node_xy (r_delta r) (S rounds))
  else
    match fuel with
    | O => Err OutOfFuel
    | S fuel' =>
        lloyd_loop fuel' max_iters n_nodes (wrap64 (n_iters + 1)) (S rounds) (r_nodes r)
    end.

(** The node array after [k] further rounds (no stopping rule). *)
Fixpoint iterate_rounds (k : nat) (n_nodes : nat) (node_xy : list point)
    : result (list point) :=
  match k with
  | O => Ok node_xy
  | S k' => r ← lloyd_round n_nodes node_xy; iterate_rounds k' n_nodes (r_nodes r)
  end.

Definition lloyd_frame (node_xy : list point) (max_iters : Z) : result frame :=
  lloyd_loop (Z.to_nat (max_iters + 1)) max_iters (length node_xy) 0 0 node_xy.

(** [lloyd(xy, w, node_xy, max_iters)]: the returned triple. *)
Definition lloyd (node_xy : list point) (max_iters : Z)
    : result (list point * list nat * bool) :=
  f ← lloyd_frame node_xy max_iters;
  Ok (f_nodes f, f_idx f, f_converged f).

End Lloyd.

(** ** A reference nearest-node index *)

(** Squared Euclidean distance between a query point and a node. *)
Definition dist2 (p n : point) : float :=
  let dx := (fst p - fst n)%float in
  let dy := (snd p - snd n)%float in
  (dx * dx + dy * dy)%float.

(** Exhaustive scan over the remaining nodes, the first of which has index
    [i]: the best node so far and its distance are replaced only by a
    strictly nearer node. *)
Fixpoint nearest_from (p : point) (nodes : list point) (i best : nat) (bestd : float)
    : nat * float :=
  match nodes with
  | [] => (best, bestd)
  | n :: nodes' =>
      let d := dist2 p n in
      if PrimFloat.ltb d bestd then nearest_from p nodes' (S i) i d
      else nearest_from p nodes' (S i) best bestd
  end.

Definition nearest (nodes : list point) (p : point) : nat :=
  match nodes with
  | [] => 0%nat
  | n :: nodes' => fst (nearest_from p nodes' 1 0 (dist2 p n))
  end.

(** Modelled from the spec: the nearest-node index of section 4.1, which in
    the source is [scipy.spatial.cKDTree] and is not part of the repository.
    Every query point gets the node at the least squared Euclidean distance,
    the lowest node index winning ties; an index over zero nodes, or over a
    node with a non-finite coordinate, is a configuration error. *)
Definition exhaustive_query (nodes pts : list point) : option (list nat) :=
  match nodes with
  | [] => None
  | _ =>
      if forallb (fun n => finite (fst n) && finite (snd n)) nodes
      then Some (map (nearest nodes) pts)
      else None
  end.

(** The distance [d] is NaN or strictly greater than [best]. *)
Definition farther_or_nan (best d : float) : Prop :=
  Prim2SF d = S754_nan \/ PrimFloat.ltb best d = true.

(** ** The quantities the spec names *)

(** An assignment is total: one node index below [n_nodes] for each of the
    [n_points] point indices. *)
Definition total_assignment (n_points n_nodes : nat) (idx : list nat) : Prop :=
  length idx = n_points /\
  forall i, (i < n_points)%nat -> exists j, idx !! i = Some j /\ (j < n_nodes)%nat.



(** The library's batch query answers with one index per query point. *)
Definition one_index_per_point (q : list point -> list point -> option (list nat)) : Prop :=
  forall nodes pts idx, q nodes pts = Some idx -> length idx = length pts.

Definition wt (w : list float) (i : nat) : float := default fzero (w !! i).
Definition pt (xy : list point) (i : nat) : point := default (fzero, fzero) (xy !! i).

(** The points assigned to node [j] among the first [n], in index order. *)
Definition members (idx : list nat) (j n : nat) : list nat :=
  filter (fun i => idx !! i = Some j) (seq 0 n).

(** Sum of the weights of the listed points, added in order from [0.0]. *)
Definition weight_total (w : list float) (ms : list nat) : float :=
  foldl (fun s i => (s + wt w i)%float) fzero ms.

(** Sums of weight times coordinate over the listed points. *)
Definition moment (xy : list point) (w : list float) (ms : list nat) : point :=
  foldl (fun s i => ((fst s + wt w i * fst (pt xy i))%float,
                     (snd s + wt w i * snd (pt xy i))%float))
        (fzero, fzero) ms.

(** The weighted centroid of the listed points. *)
Definition weighted_centroid (xy : list point) (w : list float) (ms : list nat) : point :=
  let m := moment xy w ms in
  let s := weight_total w ms in
  ((fst m / s)%float, (snd m / s)%float).

(** The weighted centroid of all the points. *)
Definition overall_centroid (xy : list point) (w : list float) : point :=
  weighted_centroid xy w (seq 0 (length xy)).

(** Total squared displacement between two node arrays. *)
Definition sq_displacement (orig new : list point) : float :=
  foldl (fun d on =>
           let dx := (fst (fst on) - fst (snd on))%float in
           let dy := (snd (fst on) - snd (snd on))%float in
           (d + (dx * dx + dy * dy))%float)
        fzero (zip orig new).


(** The state of the three arrays after the first [k] points. *)
Definition accum_upto (xy : list point) (w : list float) (idx : list nat)
    (n_nodes k : nat) (a : accum) : Prop :=
  length (node_population a) = n_nodes /\
  length (weight_sum a) = n_nodes /\
  length (acc_xy a) = n_nodes /\
  forall j, (j < n_nodes)%nat ->
    node_population a !! j = Some (Z.of_nat (length (members idx j k))) /\
    weight_sum a !! j = Some (weight_total w (members idx j k)) /\
    acc_xy a !! j = Some (moment xy w (members idx j k)).

Definition raised_by_round (e : error) : Prop :=
  e = IndexError \/ e = QueryError \/ e = ValueError.

Definition finite_point (n : point) : Prop :=
  finite (fst n) = true /\ finite (snd n) = true.



(** Sum of an array of counts. *)
Definition sum_longs (l : list Z) : Z := foldr Z.add 0 l.

(** What the accumulation loop needs of the assignment and of the weights:
    for each of the [n_points] points a node index below [n_nodes] and a
    weight. *)
Definition usable_arrays (idx : list nat) (w : list float) (n_points n_nodes : nat)
    : Prop :=
  forall i, (i < n_points)%nat ->
    (exists j, idx !! i = Some j /\ (j < n_nodes)%nat) /\ is_Some (w !! i).

(** Zero of either sign, a positive value, [+inf] or NaN: whatever does not
    compare below zero. *)
Definition sf_not_negative (s : spec_float) : Prop :=
  match s with
  | S754_infinity true | S754_finite true _ _ => False
  | _ => True
  end.

Definition not_negative (x : float) : Prop := sf_not_negative (Prim2SF x).

(** ** The call on buffers in memory *)

(** The pure embedding above passes arrays by value.  To speak of what the
    call does to the caller's arrays, the same statements are embedded a
    second time over a memory of buffers: a variable holds the location of
    a buffer, [np.zeros], [.copy()] and the library query allocate a new
    buffer, an indexed assignment updates the buffer in place. *)

Inductive buffer : Type :=
  | DoubleRows (rows : list point)   (* double[:, :] with two columns *)
  | Doubles (cells : list float)     (* double[:] *)
  | Longs (cells : list Z)           (* long[:] of counts *)
  | Indices (cells : list nat).      (* long[:] of node indices *)

Abbreviation memory := (gmap nat buffer).

Definition as_rows (b : buffer) : option (list point) :=
  match b with DoubleRows r => Some r | _ => None end.
Definition as_doubles (b : buffer) : option (list float) :=
  match b with Doubles c => Some c | _ => None end.
Definition as_longs (b : buffer) : option (list Z) :=
  match b with Longs c => Some c | _ => None end.
Definition as_indices (b : buffer) : option (list nat) :=
  match b with Indices c => Some c | _ => None end.

(** A statement: it may raise, and it leaves a memory either way. *)
Definition prog (A : Type) : Type := memory -> result A * memory.

#[global] Instance prog_ret : MRet prog := fun A a m => (Ok a, m).
#[global] Instance prog_bind : MBind prog := fun A B k p m =>
  match p m with
  | (Ok a, m') => k a m'
  | (Err e, m') => (Err e, m')
  end.

Definition raise {A : Type} (e : error) : prog A := fun m => (Err e, m).

(** A new buffer at a location not in use. *)
Definition alloc (b : buffer) : prog nat :=
  fun m => let l := fresh (dom m) in (Ok l, <[l := b]> m).

(** The whole content of a buffer (a copy, or an argument of the library). *)
Definition read {A : Type} (proj : buffer -> option (list A)) (l : nat) : prog (list A) :=
  fun m =>
    match m !! l ≫= proj with
    | Some c => (Ok c, m)
    | None => (Err TypeError, m)
    end.

(** [a[i]] as an expression. *)
Definition load {A : Type} (proj : buffer -> option (list A)) (l i : nat) : prog A :=
  fun m =>
    match m !! l ≫= proj with
    | Some c => (get c i, m)
    | None => (Err TypeError, m)
    end.

(** [a[i] = v]. *)
Definition store {A : Type} (proj : buffer -> option (list A)) (inj : list A -> buffer)
    (l i : nat) (v : A) : prog unit :=
  fun m =>
    match m !! l ≫= proj with
    | Some c =>
        if decide (i < length c)%nat then (Ok tt, <[l := inj (<[i := v]> c)]> m)
        else (Err IndexError, m)
    | None => (Err TypeError, m)
    end.

Fixpoint for_each_m {S : Type} (body : S -> nat -> prog S) (range : list nat) (s : S)
    : prog S :=
  match range with
  | [] => mret s
  | i :: range' => s' ← body s i; for_each_m body range' s'
  end.

Section LloydMemory.

Variable kd_query : list point -> list point -> option (list nat).

(** The locations held by [xy] and [w]. *)
Variable xy : nat.
Variable w : nat.

(** Lines 62-65 for one [i]. *)
Definition accumulate_point_m (idx node_population weight_sum node_xy : nat)
    (_ : unit) (i : nat) : prog unit :=
  j ← load as_indices idx i;
  c ← load as_longs node_population j;
  _ ← store as_longs Longs node_population j (c + 1);
  wi ← load as_doubles w i;
  s ← load as_doubles weight_sum j;
  _ ← store as_doubles Doubles weight_sum j (s + wi)%float;
  p ← load as_rows xy i;
  n ← load as_rows node_xy j;
  store as_rows DoubleRows node_xy j
    ((fst n + wi * fst p)%float, (snd n + wi * snd p)%float).

(** Lines 68-74 for one [i]. *)
Definition centroid_node_m (node_population weight_sum node_xy : nat)
    (_ : unit) (i : nat) : prog unit :=
  c ← load as_longs node_population i;
  if 0 <? c then
    s ← load as_doubles weight_sum i;
    n ← load as_rows node_xy i;
    store as_rows DoubleRows node_xy i ((fst n / s)%float, (snd n / s)%float)
  else
    store as_rows DoubleRows node_xy i (fzero, fzero).

(** Lines 79-81 for one [i]; [delta] is a C variable. *)
Definition displacement_node_m (orig_node_xy node_xy : nat) (delta : float) (i : nat)
    : prog float :=
  o ← load as_rows orig_node_xy i;
  n ← load as_rows node_xy i;
  let dx := (fst o - fst n)%float in
  let dy := (snd o - snd n)%float in
  mret (delta + (dx * dx + dy * dy))%float.

(** The library call of lines 54-55: it reads both arrays and returns a
    new one. *)
Definition query_m (node_xy : nat) : prog nat :=
  nodes ← read as_rows node_xy;
  pts ← read as_rows xy;
  match kd_query nodes pts with
  | Some idx => alloc (Indices idx)
  | None => raise QueryError
  end.

(** [a.copy()] of line 49: a new buffer with the rows of [a], unless [a]
    has no rows. *)
Definition copy_m (a : nat) : prog nat :=
  rows ← read as_rows a;
  match copy_rows rows with
  | Ok c => alloc (DoubleRows c)
  | Err e => raise e
  end.

(** Lines 49-81.  The result is the new binding of [node_xy], the new
    binding of [idx], and [delta]. *)
Definition lloyd_round_m (n_nodes n_points : nat) (node_xy : nat)
    : prog (nat * nat * float) :=
  orig_node_xy ← copy_m node_xy;
  idx ← query_m node_xy;
  node_population ← alloc (Longs (zeros_long n_nodes));
  node_xy' ← alloc (DoubleRows (zeros_xy n_nodes));
  weight_sum ← alloc (Doubles (zeros_double n_nodes));
  _ ← for_each_m (accumulate_point_m idx node_population weight_sum node_xy')
        (seq 0 n_points) tt;
  _ ← for_each_m (centroid_node_m node_population weight_sum node_xy')
        (seq 0 n_nodes) tt;
  delta ← for_each_m (displacement_node_m orig_node_xy node_xy') (seq 0 n_nodes) fzero;
  mret (node_xy', idx, delta).

Fixpoint lloyd_loop_m (fuel : nat) (max_iters : Z) (n_nodes n_points : nat)
    (n_iters : Z) (node_xy : nat) : prog (nat * nat * bool) :=
  r ← lloyd_round_m n_nodes n_points node_xy;
  let '(node_xy', idx, delta) := r in
  if PrimFloat.eqb delta fzero then mret (node_xy', idx, true)
  else if n_iters >? max_iters then mret (node_xy', idx, false)
  else
    match fuel with
    | O => raise OutOfFuel
    | S fuel' =>
        lloyd_loop_m fuel' max_iters n_nodes n_points (wrap64 (n_iters + 1)) node_xy'
    end.

(** The call: lines 42-45, then the loop.  It returns the locations of
    the node array and of the assignment, and the flag. *)
Definition lloyd_m (node_xy : nat) (max_iters : Z) : prog (nat * nat * bool) :=
  nodes ← read as_rows node_xy;
  pts ← read as_rows xy;
  let n_nodes := length nodes in
  let n_points := length pts in
  _ ← alloc (Indices (replicate n_points 0%nat));
  _ ← alloc (Longs (zeros_long n_nodes));
  lloyd_loop_m (Z.to_nat (max_iters + 1)) max_iters n_nodes n_points 0 node_xy.

End LloydMemory.

(** [keeps D p Q]: run from a memory that holds the locations of [D], the
    statement [p] leaves the buffers at these locations as they are, and a
    value it returns satisfies [Q]. *)
Definition keeps {A : Type} (D : gset nat) (p : prog A) (Q : A -> Prop) : Prop :=
  forall m : memory, D ⊆ dom m ->
    (D ⊆ dom (p m).2) /\
    (forall l, l ∈ D -> (p m).2 !! l = m !! l) /\
    (forall a, (p m).1 = Ok a -> Q a).

(** Both locations are new with respect to [D]. *)
Definition fresh_pair {B : Type} (D : gset nat) (r : nat * nat * B) : Prop :=
  (r.1.1 ∉ D) /\ (r.1.2 ∉ D).

(** [simulates out run post]: the statement run in memory ends as the pure
    function says -- with the same error, or with a value and a memory
    that [post] relates to the pure value. *)
Definition simulates {A B : Type} (out : result A) (run : result B * memory)
    (post : A -> B -> memory -> Prop) : Prop :=
  match out with
  | Ok a => exists b m', run = (Ok b, m') /\ post a b m'
  | Err e => run.1 = Err e
  end.

(** The memory while the accumulation loop runs: [base] with the three
    arrays of the round at their locations. *)
Definition accum_memory (base : memory) (l_pop l_ws l_new : nat) (a : accum) : memory :=
  <[l_pop := Longs (node_population a)]>
    (<[l_ws := Doubles (weight_sum a)]>
       (<[l_new := DoubleRows (acc_xy a)]> base)).

(** The memory holds the point coordinates and the weights at the locations
    bound to [xy] and [w]. *)
Definition holds_inputs (xy : list point) (w : list float) (l_xy l_w : nat)
    (m : memory) : Prop :=
  m !! l_xy = Some (DoubleRows xy) /\ m !! l_w = Some (Doubles w).

(** ** Concrete inputs *)

Module Examples.

(** The single-node example of the spec: two unit-weight points and one
    node that starts on the first of them. *)
Definition pair_xy : list point := [(0, 0); (2, 0)]%float.
Definition pair_w : list float := [1; 1]%float.
Definition pair_node : list point := [(0, 0)]%float.

(** Six unit-weight points on a line and two nodes on the first two. *)
Definition line_xy : list point := [(0, 0); (1, 0); (2, 0); (3, 0); (4, 0); (5, 0)]%float.
Definition line_w : list float := [1; 1; 1; 1; 1; 1]%float.
Definition line_nodes : list point := [(0, 0); (1, 0)]%float.

(** One point of weight zero, nearest to the only node. *)
Definition null_xy : list point := [(1, 1)]%float.
Definition null_w : list float := [0]%float.
Definition null_node : list point := [(5, 5)]%float.

(** Three unit-weight points at the scale [2^-500] and two nodes, each
    [2^-540] away from the centroid of its cell: the squares of these
    offsets, [2^-1080], are below the smallest positive double. *)
Definition tiny_scale : float := 0x1p-500%float.
Definition tiny_eps : float := 0x1p-40%float.
Definition tiny_xy : list point :=
  [(- (2 + tiny_eps) * tiny_scale, 0); (0, 0); (tiny_scale, 0)]%float.
Definition tiny_w : list float := [1; 1; 1]%float.
Definition tiny_nodes : list point :=
  [(- (1 - tiny_eps / 2) * tiny_scale, 0); ((1 + tiny_eps) * tiny_scale, 0)]%float.

(** A caller's memory for the pair example: [xy] at location 0, [w] at
    location 1, the initial nodes at location 2. *)
Definition pair_memory : memory :=
  <[0%nat := DoubleRows pair_xy]>
    (<[1%nat := Doubles pair_w]> (<[2%nat := DoubleRows pair_node]> ∅)).

End Examples.
(** ** Facts about binary64 arithmetic *)

Lemma finite_add (x y : float) :
  finite (x + y) = true -> finite x = true /\ finite y = true.
Proof.
  unfold finite. rewrite add_spec.
  destruct (Prim2SF x) as [sx|sx| |sx mx ex], (Prim2SF y) as [sy|sy| |sy my ey];
    try (destruct sx); try (destruct sy); cbn; intros H; split; congruence.
Qed.

Lemma finite_sub (x y : float) :
  finite (x - y) = true -> finite x = true /\ finite y = true.
Proof.
  unfold finite. rewrite sub_spec.
  destruct (Prim2SF x) as [sx|sx| |sx mx ex], (Prim2SF y) as [sy|sy| |sy my ey];
    try (destruct sx); try (destruct sy); cbn; intros H; split; congruence.
Qed.

Lemma finite_mul (x y : float) :
  finite (x * y) = true -> finite x = true /\ finite y = true.
Proof.
  unfold finite. rewrite mul_spec.
  destruct (Prim2SF x) as [sx|sx| |sx mx ex], (Prim2SF y) as [sy|sy| |sy my ey];
    cbn; intros H; split; congruence.
Qed.

Lemma eqb_zero_finite (x : float) : PrimFloat.eqb x fzero = true -> finite x = true.
Proof.
  unfold finite. rewrite FloatAxioms.eqb_spec.
  destruct (Prim2SF x) as [sx|sx| |sx mx ex]; try reflexivity.
  - destruct sx; cbn; discriminate.
  - cbn. discriminate.
Qed.

(** A finite double minus itself is [+0.0]. *)
Lemma fsub_diag (x : float) : finite x = true -> (x - x)%float = fzero.
Proof.
  unfold finite. intros H.
  rewrite <- (SF2Prim_Prim2SF (x - x)%float), sub_spec.
  destruct (Prim2SF x) as [sx|sx| |sx mx ex]; try discriminate.
  - destruct sx; reflexivity.
  - unfold SF64sub, SFsub. rewrite Z.sub_diag. reflexivity.
Qed.

(** *** The order of binary64 values *)

Ltac compare_cases :=
  repeat match goal with
  | H : context [Z.compare ?x ?y] |- _ => destruct (Z.compare_spec x y)
  | |- context [Z.compare ?x ?y] => destruct (Z.compare_spec x y)
  | H : context [Pos.compare_cont Eq ?x ?y] |- _ =>
      change (Pos.compare_cont Eq x y) with (Pos.compare x y) in *;
      destruct (Pos.compare_spec x y)
  | |- context [Pos.compare_cont Eq ?x ?y] =>
      change (Pos.compare_cont Eq x y) with (Pos.compare x y) in *;
      destruct (Pos.compare_spec x y)
  end.

Ltac by_float_cases :=
  compare_cases; subst; try discriminate; try reflexivity; try lia.

Lemma SFltb_leb_trans (a b c : spec_float) :
  SFltb a b = true -> SFleb b c = true -> SFltb a c = true.
Proof.
  unfold SFltb, SFleb, SFcompare.
  destruct a as [sa|sa| |sa ma ea], b as [sb|sb| |sb mb eb], c as [sc|sc| |sc mc ec];
    try destruct sa; try destruct sb; try destruct sc;
    try discriminate; try reflexivity; intros H1 H2; by_float_cases.
Qed.

Lemma SFltb_total (a b : spec_float) :
  SFltb a b = false -> a = S754_nan \/ b = S754_nan \/ SFleb b a = true.
Proof.
  unfold SFltb, SFleb, SFcompare.
  destruct a as [sa|sa| |sa ma ea], b as [sb|sb| |sb mb eb];
    try destruct sa; try destruct sb; intros H; auto;
    try discriminate; right; right; try reflexivity; by_float_cases.
Qed.

Lemma SFltb_not_eqb (a b : spec_float) : SFltb a b = true -> SFeqb b a = false.
Proof.
  unfold SFltb, SFeqb, SFcompare.
  destruct a as [sa|sa| |sa ma ea], b as [sb|sb| |sb mb eb];
    try destruct sa; try destruct sb; intros H;
    try discriminate; try reflexivity; by_float_cases.
Qed.

Lemma SFltb_asym (a b : spec_float) : SFltb a b = true -> SFltb b a = false.
Proof.
  unfold SFltb, SFcompare.
  destruct a as [sa|sa| |sa ma ea], b as [sb|sb| |sb mb eb];
    try destruct sa; try destruct sb; intros H;
    try discriminate; try reflexivity; by_float_cases.
Qed.

(** When [a < best], whatever is not below [best] is strictly above [a]. *)
Lemma fltb_improves (a best d : float) :
  PrimFloat.ltb a best = true ->
  PrimFloat.ltb d best = false ->
  farther_or_nan a d.
Proof.
  unfold farther_or_nan. rewrite !ltb_spec. intros Hab Hd.
  destruct (SFltb_total _ _ Hd) as [Hn | [Hn | Hle]].
  - left. exact Hn.
  - rewrite Hn in Hab. destruct (Prim2SF a); discriminate.
  - right. eapply SFltb_leb_trans; eassumption.
Qed.

Lemma farther_or_nan_not_nearer (best d : float) :
  farther_or_nan best d ->
  PrimFloat.ltb d best = false /\ PrimFloat.eqb d best = false.
Proof.
  unfold farther_or_nan. rewrite !ltb_spec, FloatAxioms.eqb_spec. intros [Hn | Hlt].
  - rewrite Hn. split; reflexivity.
  - split; [by apply SFltb_asym | by apply SFltb_not_eqb].
Qed.

(** *** Signs of squares and sums *)

Lemma binary_round_aux_sign (prec emax : Z) (mx ex : Z) (lx : location) :
  sf_not_negative (binary_round_aux prec emax false mx ex lx).
Proof.
  unfold binary_round_aux.
  destruct (shr_fexp prec emax mx ex lx) as [r e].
  destruct (shr_fexp prec emax _ e loc_Exact) as [r' e'].
  destruct (shr_m r'); try exact I.
  destruct (Z.leb e' (emax - prec)); exact I.
Qed.

Lemma fmul_self_not_negative (x : float) : not_negative (x * x).
Proof.
  unfold not_negative. rewrite mul_spec. unfold SF64mul, SFmul.
  destruct (Prim2SF x) as [s|s| |s m e]; try exact I; try (destruct s; exact I).
  replace (xorb s s) with false by (destruct s; reflexivity).
  apply binary_round_aux_sign.
Qed.

Lemma fadd_not_negative (a b : float) :
  not_negative a -> not_negative b -> not_negative (a + b).
Proof.
  unfold not_negative. rewrite add_spec. unfold SF64add, SFadd.
  destruct (Prim2SF a) as [sa|sa| |sa ma ea], (Prim2SF b) as [sb|sb| |sb mb eb];
    try destruct sa; try destruct sb; simpl; try tauto.
  intros _ _. unfold binary_normalize.
  destruct (shl_align ma ea (Z.min ea eb)) as [m1 e1].
  destruct (shl_align mb eb (Z.min ea eb)) as [m2 e2]. simpl.
  unfold binary_round.
  destruct (shl_align _ _ _) as [mz ez]. apply binary_round_aux_sign.
Qed.

Lemma not_negative_ltb (x : float) : not_negative x -> PrimFloat.ltb x fzero = false.
Proof.
  unfold not_negative. rewrite ltb_spec.
  destruct (Prim2SF x) as [s|s| |s m e]; try destruct s; simpl; try tauto;
    intros _; reflexivity.
Qed.

(** ** The error monad and loops *)

Lemma bind_Ok {A B : Type} (r : result A) (k : A -> result B) (b : B) :
  r ≫= k = Ok b <-> exists a, r = Ok a /\ k a = Ok b.
Proof.
  destruct r as [a|e]; simpl; split.
  - intros H. exists a. split; [reflexivity | exact H].
  - intros (a' & Ha & Hk). injection Ha as ->. exact Hk.
  - discriminate.
  - intros (a' & Ha & _). discriminate.
Qed.

Lemma get_Ok {A : Type} (a : list A) (i : nat) (v : A) :
  get a i = Ok v <-> a !! i = Some v.
Proof.
  unfold get. destruct (a !! i); split; intros H; try discriminate; congruence.
Qed.

Lemma get_Err {A : Type} (a : list A) (i : nat) (e : error) :
  get a i = Err e -> e = IndexError /\ (length a <= i)%nat.
Proof.
  unfold get. destruct (a !! i) eqn:E; [discriminate |].
  intros [= <-]. split; [reflexivity | by apply lookup_ge_None].
Qed.

Lemma for_each_app {S : Type} (body : S -> nat -> result S) (l1 l2 : list nat) (s : S) :
  for_each body (l1 ++ l2) s = for_each body l1 s ≫= for_each body l2.
Proof.
  revert s. induction l1 as [|i l1 IH]; intros s; simpl; [reflexivity |].
  destruct (body s i) as [s'|e]; simpl; [apply IH | reflexivity].
Qed.

Lemma for_each_snoc {S : Type} (body : S -> nat -> result S) (n : nat) (s t : S) :
  for_each body (seq 0 (Datatypes.S n)) s = Ok t <->
  exists s', for_each body (seq 0 n) s = Ok s' /\ body s' n = Ok t.
Proof.
  rewrite seq_S, for_each_app, bind_Ok. simpl.
  split; intros (s' & H1 & H2); exists s'; split; try exact H1.
  - destruct (body s' n); simpl in H2; congruence.
  - rewrite H2. reflexivity.
Qed.

(** ** The accumulation loop computes the per-node sums *)

Lemma members_S (idx : list nat) (j n : nat) :
  members idx j (S n) =
  members idx j n ++ (if decide (idx !! n = Some j) then [n] else []).
Proof.
  unfold members. rewrite seq_S, filter_app. simpl. f_equal.
Qed.

Lemma members_lt (idx : list nat) (j n i : nat) :
  i ∈ members idx j n -> (i < n)%nat /\ idx !! i = Some j.
Proof.
  unfold members. rewrite list_elem_of_filter, elem_of_seq. intros [H1 H2].
  split; [lia | exact H1].
Qed.

Lemma accumulate_point_Ok (xy : list point) (w : list float) (idx : list nat)
    (a a' : accum) (i : nat) :
  accumulate_point xy w idx a i = Ok a' <->
  exists j c wi s p n,
    idx !! i = Some j /\ node_population a !! j = Some c /\ w !! i = Some wi /\
    weight_sum a !! j = Some s /\ xy !! i = Some p /\ acc_xy a !! j = Some n /\
    a' = Accum (<[j := c + 1]> (node_population a))
               (<[j := (s + wi)%float]> (weight_sum a))
               (<[j := ((fst n + wi * fst p)%float, (snd n + wi * snd p)%float)]> (acc_xy a)).
Proof.
  unfold accumulate_point. split.
  - intros H.
    apply bind_Ok in H as (j & Hj & H). apply bind_Ok in H as (c & Hc & H).
    apply bind_Ok in H as (wi & Hwi & H). apply bind_Ok in H as (s & Hs & H).
    apply bind_Ok in H as (p & Hp & H). apply bind_Ok in H as (n & Hn & H).
    apply get_Ok in Hj, Hc, Hwi, Hs, Hp, Hn. injection H as <-.
    exists j, c, wi, s, p, n. repeat split; assumption.
  - intros (j & c & wi & s & p & n & Hj & Hc & Hwi & Hs & Hp & Hn & ->).
    unfold get. rewrite Hj; simpl. rewrite Hc; simpl. rewrite Hwi; simpl.
    rewrite Hs; simpl. rewrite Hp; simpl. rewrite Hn; simpl. reflexivity.
Qed.

Lemma accum_upto_zeros (xy : list point) (w : list float) (idx : list nat) (n_nodes : nat) :
  accum_upto xy w idx n_nodes 0
    (Accum (zeros_long n_nodes) (zeros_double n_nodes) (zeros_xy n_nodes)).
Proof.
  unfold accum_upto, zeros_long, zeros_double, zeros_xy. simpl.
  rewrite !length_replicate. split; [reflexivity |].
  split; [reflexivity |]. split; [reflexivity |].
  intros j Hj. repeat split; apply lookup_replicate_2; exact Hj.
Qed.

Lemma accum_upto_step (xy : list point) (w : list float) (idx : list nat)
    (n_nodes k : nat) (a a' : accum) :
  accum_upto xy w idx n_nodes k a ->
  accumulate_point xy w idx a k = Ok a' ->
  accum_upto xy w idx n_nodes (S k) a'.
Proof.
  intros (Lp & Lw & Lx & Hall) H.
  apply accumulate_point_Ok in H
    as (j & c & wi & s & p & n & Hj & Hc & Hwi & Hs & Hp & Hn & ->).
  assert (Hjn : (j < n_nodes)%nat) by (rewrite <- Lp; by eapply lookup_lt_Some).
  destruct (Hall j Hjn) as (Hc' & Hs' & Hn').
  rewrite Hc in Hc'. rewrite Hs in Hs'. rewrite Hn in Hn'.
  injection Hc' as ->. injection Hs' as ->. injection Hn' as ->.
  unfold accum_upto. simpl. rewrite !length_insert.
  split; [exact Lp |]. split; [exact Lw |]. split; [exact Lx |].
  intros j' Hj'. rewrite members_S.
  destruct (decide (j = j')) as [<- | Hne].
  - rewrite decide_True by exact Hj.
    rewrite !list_lookup_insert_eq by lia.
    unfold weight_total, moment. rewrite length_app, !foldl_app. simpl.
    unfold wt, pt. rewrite Hwi, Hp. simpl.
    repeat split; try reflexivity. f_equal. lia.
  - rewrite decide_False by congruence.
    rewrite !list_lookup_insert_ne by exact Hne.
    rewrite app_nil_r. apply Hall, Hj'.
Qed.

Lemma accumulate_upto (xy : list point) (w : list float) (idx : list nat)
    (n_nodes k : nat) (a : accum) :
  accumulate xy w idx n_nodes k = Ok a -> accum_upto xy w idx n_nodes k a.
Proof.
  unfold accumulate. revert a. induction k as [|k IH]; intros a H.
  - injection H as <-. apply accum_upto_zeros.
  - apply for_each_snoc in H as (a0 & H0 & Hstep).
    eapply accum_upto_step; [apply IH, H0 | exact Hstep].
Qed.

(** A completed accumulation has read [idx[i]] and [w[i]] for every point
    and found every [idx[i]] inside the node arrays. *)
Lemma accumulate_in_range (xy : list point) (w : list float) (idx : list nat)
    (n_nodes k : nat) (a : accum) :
  accumulate xy w idx n_nodes k = Ok a ->
  forall i, (i < k)%nat ->
    (exists j, idx !! i = Some j /\ (j < n_nodes)%nat) /\ is_Some (w !! i).
Proof.
  unfold accumulate. revert a. induction k as [|k IH]; intros a H i Hi; [lia |].
  apply for_each_snoc in H as (a0 & H0 & Hstep).
  destruct (decide (i = k)) as [-> | Hne].
  - apply accumulate_upto in H0 as (Lp & _).
    apply accumulate_point_Ok in Hstep
      as (j & c & wi & s & p & n & Hj & Hc & Hwi & _).
    split; [| by exists wi]. exists j. split; [exact Hj |].
    rewrite <- Lp. by eapply lookup_lt_Some.
  - apply (IH a0 H0). lia.
Qed.

(** ** The centroid loop *)

Lemma centroid_node_Ok (pop : list Z) (ws : list float) (nodes nodes' : list point)
    (i : nat) :
  centroid_node pop ws nodes i = Ok nodes' <->
  exists c n, pop !! i = Some c /\ nodes !! i = Some n /\
    ((0 < c /\ exists s, ws !! i = Some s /\
        nodes' = <[i := ((fst n / s)%float, (snd n / s)%float)]> nodes) \/
     (c <= 0 /\ nodes' = <[i := (fzero, fzero)]> nodes)).
Proof.
  unfold centroid_node. split.
  - intros H. apply bind_Ok in H as (c & Hc & H). apply get_Ok in Hc.
    destruct (Z.ltb_spec 0 c) as [Hpos | Hle].
    + apply bind_Ok in H as (s & Hs & H). apply bind_Ok in H as (n & Hn & H).
      apply get_Ok in Hs, Hn. injection H as <-.
      exists c, n. split; [exact Hc |]. split; [exact Hn |]. left.
      split; [exact Hpos |]. exists s. split; [exact Hs | reflexivity].
    + apply bind_Ok in H as (n & Hn & H). apply get_Ok in Hn. injection H as <-.
      exists c, n. split; [exact Hc |]. split; [exact Hn |]. right.
      split; [exact Hle | reflexivity].
  - intros (c & n & Hc & Hn & [(Hpos & s & Hs & ->) | (Hle & ->)]);
      unfold get; rewrite Hc; simpl.
    + destruct (Z.ltb_spec 0 c); [| lia]. rewrite Hs; simpl. rewrite Hn; simpl.
      reflexivity.
    + destruct (Z.ltb_spec 0 c); [lia |]. rewrite Hn. reflexivity.
Qed.

(** After the first [k] nodes: those are final, the others still hold the
    accumulated sums. *)
Lemma centroids_upto (pop : list Z) (ws : list float) (sums nodes : list point) (k : nat) :
  for_each (centroid_node pop ws) (seq 0 k) sums = Ok nodes ->
  length nodes = length sums /\
  (forall j, (k <= j)%nat -> nodes !! j = sums !! j) /\
  (forall j, (j < k)%nat ->
     exists c n, pop !! j = Some c /\ sums !! j = Some n /\
       ((0 < c /\ exists s, ws !! j = Some s /\
           nodes !! j = Some ((fst n / s)%float, (snd n / s)%float)) \/
        (c <= 0 /\ nodes !! j = Some (fzero, fzero)))).
Proof.
  revert nodes. induction k as [|k IH]; intros nodes H.
  - injection H as <-. split; [reflexivity |]. split; [reflexivity | lia].
  - apply for_each_snoc in H as (mid & H0 & Hstep).
    destruct (IH mid H0) as (Len & Hrest & Hdone).
    apply centroid_node_Ok in Hstep as (c & n & Hc & Hn & Hcase).
    assert (Hk : (k < length mid)%nat) by (by eapply lookup_lt_Some).
    assert (Hlen : length nodes = length mid).
    { destruct Hcase as [(_ & s & _ & ->) | (_ & ->)]; apply length_insert. }
    split; [congruence |]. split.
    + intros j Hj. rewrite <- Hrest by lia.
      destruct Hcase as [(_ & s & _ & ->) | (_ & ->)];
        apply list_lookup_insert_ne; lia.
    + intros j Hj. destruct (decide (j = k)) as [-> | Hne].
      * exists c, n. split; [exact Hc |].
        split; [rewrite <- Hrest by lia; exact Hn |].
        destruct Hcase as [(Hpos & s & Hs & ->) | (Hle & ->)].
        -- left. split; [exact Hpos |]. exists s. split; [exact Hs |].
           apply list_lookup_insert_eq, Hk.
        -- right. split; [exact Hle |]. apply list_lookup_insert_eq, Hk.
      * destruct (Hdone j ltac:(lia)) as (c' & n' & Hc' & Hn' & Hcase').
        exists c', n'. split; [exact Hc' |]. split; [exact Hn' |].
        destruct Hcase as [(_ & s & _ & ->) | (_ & ->)];
          rewrite list_lookup_insert_ne by lia; exact Hcase'.
Qed.

(** ** The displacement loop *)

Lemma displacement_upto (orig new : list point) (k : nat) (d : float) :
  for_each (displacement_node orig new) (seq 0 k) fzero = Ok d ->
  (k <= length orig)%nat /\ (k <= length new)%nat /\
  d = sq_displacement (take k orig) (take k new).
Proof.
  revert d. induction k as [|k IH]; intros d H.
  - injection H as <-. repeat split; simpl; lia.
  - apply for_each_snoc in H as (d0 & H0 & Hstep).
    destruct (IH d0 H0) as (Lo & Ln & ->).
    unfold displacement_node in Hstep.
    apply bind_Ok in Hstep as (o & Ho & Hstep).
    apply bind_Ok in Hstep as (n & Hn & Hstep).
    apply get_Ok in Ho, Hn. injection Hstep as <-.
    split; [by eapply lookup_lt_Some |]. split; [by eapply lookup_lt_Some |].
    rewrite (take_S_r _ _ _ Ho), (take_S_r _ _ _ Hn).
    unfold sq_displacement.
    rewrite zip_with_app by (rewrite !length_take; lia).
    rewrite foldl_app. reflexivity.
Qed.

Lemma displacement_Ok (orig new : list point) (d : float) :
  length orig = length new ->
  displacement orig new (length new) = Ok d ->
  d = sq_displacement orig new.
Proof.
  intros Hlen H. apply displacement_upto in H as (_ & _ & ->).
  rewrite <- Hlen at 1. rewrite !firstn_all. reflexivity.
Qed.

(** ** The loops of a round do not raise on well-formed arrays *)

Lemma accumulate_total (xy : list point) (w : list float) (idx : list nat)
    (n_nodes k : nat) :
  (k <= length xy)%nat -> (k <= length w)%nat ->
  (forall i, (i < k)%nat -> exists j, idx !! i = Some j /\ (j < n_nodes)%nat) ->
  exists a, accumulate xy w idx n_nodes k = Ok a.
Proof.
  induction k as [|k IH]; intros Hxy Hw Hidx.
  - eexists. reflexivity.
  - destruct IH as [a0 Ha0]; [lia | lia | intros i Hi; apply Hidx; lia |].
    destruct (accumulate_upto _ _ _ _ _ _ Ha0) as (Lp & Lw & Lx & _).
    destruct (Hidx k ltac:(lia)) as (j & Hj & Hjn).
    destruct (lookup_lt_is_Some_2 (node_population a0) j) as [c Hc]; [lia |].
    destruct (lookup_lt_is_Some_2 (weight_sum a0) j) as [s Hs]; [lia |].
    destruct (lookup_lt_is_Some_2 (acc_xy a0) j) as [n Hn]; [lia |].
    destruct (lookup_lt_is_Some_2 w k) as [wi Hwi]; [lia |].
    destruct (lookup_lt_is_Some_2 xy k) as [p Hp]; [lia |].
    eexists. unfold accumulate. apply for_each_snoc. exists a0.
    split; [exact Ha0 |]. apply accumulate_point_Ok.
    exists j, c, wi, s, p, n. repeat split; eassumption.
Qed.

Lemma centroids_total (a : accum) (n_nodes : nat) :
  length (node_population a) = n_nodes ->
  length (acc_xy a) = n_nodes ->
  length (weight_sum a) = n_nodes ->
  exists ns, centroids a n_nodes = Ok ns.
Proof.
  intros Lp Lx Lw. unfold centroids.
  assert (H : forall k, (k <= n_nodes)%nat ->
            exists ns, for_each (centroid_node (node_population a) (weight_sum a))
                         (seq 0 k) (acc_xy a) = Ok ns).
  { induction k as [|k IH]; intros Hk; [eexists; reflexivity |].
    destruct IH as [mid Hmid]; [lia |].
    destruct (centroids_upto _ _ _ _ _ Hmid) as (Len & _).
    destruct (lookup_lt_is_Some_2 (node_population a) k) as [c Hc]; [lia |].
    destruct (lookup_lt_is_Some_2 (weight_sum a) k) as [s Hs]; [lia |].
    destruct (lookup_lt_is_Some_2 mid k) as [n Hn]; [lia |].
    destruct (Z.lt_ge_cases 0 c) as [Hpos | Hle];
      eexists; apply for_each_snoc; exists mid; (split; [exact Hmid |]);
      apply centroid_node_Ok; exists c, n; (split; [exact Hc |]); (split; [exact Hn |]).
    - left. split; [exact Hpos |]. exists s. split; [exact Hs | reflexivity].
    - right. split; [lia | reflexivity]. }
  apply H. lia.
Qed.

(** ** One round *)

Section Round.

Variable kd_query : list point -> list point -> option (list nat).
Variable xy : list point.
Variable w : list float.

Lemma lloyd_round_Ok (n_nodes : nat) (node_xy : list point) (r : round_out) :
  lloyd_round kd_query xy w n_nodes node_xy = Ok r <->
  exists a,
    kd_query node_xy xy = Some (r_idx r) /\
    accumulate xy w (r_idx r) n_nodes (length xy) = Ok a /\
    centroids a n_nodes = Ok (r_nodes r) /\
    displacement node_xy (r_nodes r) n_nodes = Ok (r_delta r) /\
    node_xy <> [].
Proof.
  unfold lloyd_round. destruct node_xy as [|n0 rest].
  { split; [discriminate | intros (a & _ & _ & _ & _ & H); contradiction]. }
  cbn [copy_rows mbind result_bind]. split.
  - intros H. apply bind_Ok in H as (idx & Hq & H).
    apply bind_Ok in H as (a & Ha & H). apply bind_Ok in H as (new_xy & Hc & H).
    apply bind_Ok in H as (delta & Hd & H). injection H as <-. simpl.
    destruct (kd_query (n0 :: rest) xy) as [idx'|]; [| discriminate].
    injection Hq as ->. exists a. repeat split; try assumption. discriminate.
  - intros (a & Hq & Ha & Hc & Hd & _). rewrite Hq. simpl. rewrite Ha. simpl.
    rewrite Hc. simpl. rewrite Hd. simpl. destruct r; reflexivity.
Qed.


(** With at least one node the snapshot succeeds. *)
Lemma lloyd_round_some_node (n_nodes : nat) (node_xy : list point) :
  node_xy <> [] ->
  lloyd_round kd_query xy w n_nodes node_xy =
  idx ← query_result (kd_query node_xy xy);
  a ← accumulate xy w idx n_nodes (length xy);
  new_xy ← centroids a n_nodes;
  delta ← displacement node_xy new_xy n_nodes;
  Ok (RoundOut new_xy idx delta).
Proof. destruct node_xy; [done | reflexivity]. Qed.

(** The assignment of a round is the answer of the index to the node
    positions at the start of the round and the points: nothing else of
    the state of the call enters it. *)
Lemma round_assignment_is_query (n_nodes : nat) (node_xy : list point) (r : round_out) :
  lloyd_round kd_query xy w n_nodes node_xy = Ok r ->
  kd_query node_xy xy = Some (r_idx r).
Proof. intros H. by apply lloyd_round_Ok in H as (a & Hq & _). Qed.

Lemma round_nodes_length (n_nodes : nat) (node_xy : list point) (r : round_out) :
  lloyd_round kd_query xy w n_nodes node_xy = Ok r ->
  length (r_nodes r) = n_nodes.
Proof.
  intros H. apply lloyd_round_Ok in H as (a & _ & Ha & Hc & _).
  apply accumulate_upto in Ha as (_ & _ & Lx & _).
  apply centroids_upto in Hc as (Len & _). congruence.
Qed.

(** The displacement of a completed round is the total squared
    displacement between the snapshot and the new node array. *)
Lemma round_delta (n_nodes : nat) (node_xy : list point) (r : round_out) :
  length node_xy = n_nodes ->
  lloyd_round kd_query xy w n_nodes node_xy = Ok r ->
  r_delta r = sq_displacement node_xy (r_nodes r).
Proof.
  intros Hn H. pose proof (round_nodes_length _ _ _ H) as Hlen.
  apply lloyd_round_Ok in H as (a & _ & _ & _ & Hd & _).
  rewrite <- Hlen in Hd. apply displacement_Ok in Hd; [exact Hd | congruence].
Qed.

(** What a completed round stored for node [j]. *)
Lemma round_node (n_nodes : nat) (node_xy : list point) (r : round_out) (j : nat) :
  lloyd_round kd_query xy w n_nodes node_xy = Ok r ->
  (j < n_nodes)%nat ->
  let ms := members (r_idx r) j (length xy) in
  (ms <> [] /\ r_nodes r !! j = Some (weighted_centroid xy w ms)) \/
  (ms = [] /\ r_nodes r !! j = Some (fzero, fzero)).
Proof.
  intros H Hj ms. apply lloyd_round_Ok in H as (a & _ & Ha & Hc & _).
  apply accumulate_upto in Ha as (_ & _ & _ & Hall).
  destruct (Hall j Hj) as (Hpop & Hws & Hsum).
  apply centroids_upto in Hc as (_ & _ & Hdone).
  destruct (Hdone j Hj) as (c & n & Hc & Hn & Hcase).
  rewrite Hpop in Hc. injection Hc as <-. rewrite Hsum in Hn. injection Hn as <-.
  fold ms in Hcase.
  destruct Hcase as [(Hpos & s & Hs & Hnode) | (Hle & Hnode)].
  - left. rewrite Hws in Hs. injection Hs as <-.
    split; [| exact Hnode].
    intros E. fold ms in Hpos. rewrite E in Hpos. simpl in Hpos. lia.
  - right. split; [| exact Hnode]. fold ms in Hle.
    destruct ms; [reflexivity | simpl in Hle; lia].
Qed.

Lemma round_in_range (n_nodes : nat) (node_xy : list point) (r : round_out) :
  lloyd_round kd_query xy w n_nodes node_xy = Ok r ->
  forall i, (i < length xy)%nat ->
    exists j, r_idx r !! i = Some j /\ (j < n_nodes)%nat.
Proof.
  intros H i Hi. apply lloyd_round_Ok in H as (a & _ & Ha & _).
  exact (proj1 (accumulate_in_range _ _ _ _ _ _ Ha i Hi)).
Qed.

(** C1. In every round that completes, a node whose assigned weight sum is
    strictly positive is moved to the weighted centroid of its assigned
    points: the sum of weight times coordinate divided by the weight sum,
    in each coordinate. *)
Theorem round_weighted_centroid (n_nodes : nat) (node_xy : list point)
    (r : round_out) (j : nat) :
  lloyd_round kd_query xy w n_nodes node_xy = Ok r ->
  PrimFloat.ltb fzero (weight_total w (members (r_idx r) j (length xy))) = true ->
  r_nodes r !! j = Some (weighted_centroid xy w (members (r_idx r) j (length xy))).
Proof.
  intros H Hpos.
  destruct (members (r_idx r) j (length xy)) as [|i ms] eqn:E.
  { vm_compute in Hpos. discriminate. }
  assert (Hi : i ∈ members (r_idx r) j (length xy)) by (rewrite E; left).
  apply members_lt in Hi as [Hi Hij].
  destruct (round_in_range _ _ _ H i Hi) as (j' & Hj' & Hlt).
  assert (j' = j) by congruence. subst j'.
  destruct (round_node _ _ _ j H Hlt) as [(_ & Hnode) | (E' & _)].
  - rewrite E in Hnode. exact Hnode.
  - congruence.
Qed.

(** C2 (amended). In every round that completes, a node to which no point
    was assigned is set to the origin (0, 0). *)
Theorem round_empty_node_origin (n_nodes : nat) (node_xy : list point)
    (r : round_out) (j : nat) :
  lloyd_round kd_query xy w n_nodes node_xy = Ok r ->
  (j < n_nodes)%nat ->
  members (r_idx r) j (length xy) = [] ->
  r_nodes r !! j = Some (fzero, fzero).
Proof.
  intros H Hj E. destruct (round_node _ _ _ j H Hj) as [(Hne & _) | (_ & Hnode)];
    [contradiction | exact Hnode].
Qed.

Lemma round_total_assignment (n_nodes : nat) (node_xy : list point) (r : round_out) :
  one_index_per_point kd_query ->
  lloyd_round kd_query xy w n_nodes node_xy = Ok r ->
  total_assignment (length xy) n_nodes (r_idx r).
Proof.
  intros Hq H. split; [| exact (round_in_range _ _ _ H)].
  apply lloyd_round_Ok in H as (a & Hidx & _). exact (Hq _ _ _ Hidx).
Qed.

End Round.

(** ** Which errors a round can raise *)

Lemma bind_Err {A B : Type} (r : result A) (k : A -> result B) (e : error) :
  r ≫= k = Err e -> r = Err e \/ exists a, r = Ok a /\ k a = Err e.
Proof.
  destruct r as [a|e']; simpl; intros H; [right; by exists a | left; congruence].
Qed.

Lemma for_each_Err {S : Type} (P : error -> Prop) (body : S -> nat -> result S)
    (range : list nat) (s : S) (e : error) :
  (forall s' i e', body s' i = Err e' -> P e') ->
  for_each body range s = Err e -> P e.
Proof.
  intros Hbody. revert s. induction range as [|i range IH]; intros s H; [discriminate |].
  simpl in H. apply bind_Err in H as [H | (s' & _ & H)]; [by eapply Hbody | by eapply IH].
Qed.

Ltac raised_step H :=
  apply bind_Err in H as [H | (? & _ & H)];
  [try (apply get_Err in H as [-> _]; left; reflexivity) |].

Lemma lloyd_round_Err kd_query xy w (n_nodes : nat) (node_xy : list point) (e : error) :
  lloyd_round kd_query xy w n_nodes node_xy = Err e -> raised_by_round e.
Proof.
  unfold lloyd_round. intros H.
  raised_step H.
  { destruct node_xy; [| discriminate]. injection H as <-.
    right; right; reflexivity. }
  raised_step H.
  { destruct (kd_query node_xy xy); [discriminate |]. injection H as <-.
    right; left; reflexivity. }
  raised_step H.
  { revert H. apply for_each_Err. intros a i e' H. unfold accumulate_point in H.
    do 6 raised_step H. discriminate. }
  raised_step H.
  { revert H. apply for_each_Err. intros ns i e' H. unfold centroid_node in H.
    raised_step H. destruct (0 <? _).
    - do 2 raised_step H. discriminate.
    - raised_step H. discriminate. }
  raised_step H.
  { revert H. apply for_each_Err. intros d i e' H. unfold displacement_node in H.
    do 2 raised_step H. discriminate. }
  discriminate.
Qed.

(** ** The loop *)

Lemma wrap64_small (z : Z) : - 2 ^ 63 <= z < 2 ^ 63 -> wrap64 z = z.
Proof. intros H. unfold wrap64. rewrite Z.mod_small; lia. Qed.

Section Loop.

Variable kd_query : list point -> list point -> option (list nat).
Variable xy : list point.
Variable w : list float.

Lemma lloyd_loop_eq (fuel : nat) (max_iters : Z) (n_nodes : nat) (n_iters : Z)
    (rounds : nat) (node_xy : list point) :
  lloyd_loop kd_query xy w fuel max_iters n_nodes n_iters rounds node_xy =
  r ← lloyd_round kd_query xy w n_nodes node_xy;
  if PrimFloat.eqb (r_delta r) fzero then
    Ok (Frame (r_nodes r) (r_idx r) true n_iters node_xy (r_delta r) (S rounds))
  else if n_iters >? max_iters then
    Ok (Frame (r_nodes r) (r_idx r) false n_iters node_xy (r_delta r) (S rounds))
  else
    match fuel with
    | O => Err OutOfFuel
    | S fuel' =>
        lloyd_loop kd_query xy w fuel' max_iters n_nodes (wrap64 (n_iters + 1))
          (S rounds) (r_nodes r)
    end.
Proof. destruct fuel; reflexivity. Qed.

(** What a returning loop did: [k] rounds that moved some node, then the
    round it returned from. *)
Lemma lloyd_loop_Ok (fuel : nat) (max_iters : Z) (n_nodes : nat) (n_iters : Z)
    (rounds : nat) (node_xy : list point) (f : frame) :
  length node_xy = n_nodes ->
  lloyd_loop kd_query xy w fuel max_iters n_nodes n_iters rounds node_xy = Ok f ->
  exists k : nat,
    (k <= fuel)%nat /\
    f_rounds f = (rounds + S k)%nat /\
    iterate_rounds kd_query xy w k n_nodes node_xy = Ok (f_orig f) /\
    length (f_orig f) = n_nodes /\
    lloyd_round kd_query xy w n_nodes (f_orig f)
      = Ok (RoundOut (f_nodes f) (f_idx f) (f_delta f)) /\
    f_converged f = PrimFloat.eqb (f_delta f) fzero /\
    (f_converged f = false -> f_n_iters f > max_iters) /\
    (forall k', (k' < k)%nat ->
       exists ns r, iterate_rounds kd_query xy w k' n_nodes node_xy = Ok ns /\
                    lloyd_round kd_query xy w n_nodes ns = Ok r /\
                    PrimFloat.eqb (r_delta r) fzero = false) /\
    (- 2 ^ 63 <= n_iters -> max_iters < 2 ^ 63 - 1 ->
       f_n_iters f = n_iters + Z.of_nat k /\
       (k = 0%nat \/ f_n_iters f <= max_iters + 1)).
Proof.
  revert n_iters rounds node_xy.
  induction fuel as [|fuel IH]; intros n_iters rounds node_xy Hlen H;
    rewrite lloyd_loop_eq in H; apply bind_Ok in H as (r & Hr & H);
    destruct (PrimFloat.eqb (r_delta r) fzero) eqn:Hz;
    try (destruct (Z.gtb_spec n_iters max_iters) as [Hgt | Hle]);
    try discriminate.
  1-6:
    injection H as <-; exists 0%nat; simpl;
    (split; [lia |]); (split; [lia |]); (split; [reflexivity |]);
    (split; [exact Hlen |]); (split; [destruct r; exact Hr |]);
    (split; [by rewrite Hz |]); (split; [intros; try discriminate; lia |]);
    (split; [intros; lia |]); intros; split; [lia | by left].
  pose proof (round_nodes_length _ _ _ _ _ _ Hr) as Hlen'.
  destruct (IH _ _ _ Hlen' H)
    as (k & Hk & Hrounds & Hiter & Horig & Hlast & Hconv & Hbudget & Hmoved & Hcount).
  exists (S k). split; [lia |]. split; [lia |].
  split; [simpl; rewrite Hr; exact Hiter |].
  split; [exact Horig |]. split; [exact Hlast |]. split; [exact Hconv |].
  split; [exact Hbudget |]. split.
  - intros [|k'] Hk'.
    + exists node_xy, r. split; [reflexivity |]. split; [exact Hr | exact Hz].
    + destruct (Hmoved k' ltac:(lia)) as (ns & r' & H1 & H2 & H3).
      exists ns, r'. split; [simpl; rewrite Hr; exact H1 |]. split; assumption.
  - intros Hlo Hmax. rewrite wrap64_small in Hcount by lia.
    destruct Hcount as [Hn Hcases]; [lia | exact Hmax |].
    split; [lia |]. right. destruct Hcases as [-> | Hcase]; lia.
Qed.

(** With a budget below the largest [long], the fuel given by
    [lloyd_frame] is never exhausted: the embedding loses no run. *)
Lemma lloyd_loop_fuel (fuel : nat) (max_iters : Z) (n_nodes : nat) (n_iters : Z)
    (rounds : nat) (node_xy : list point) :
  - 2 ^ 63 <= n_iters -> max_iters < 2 ^ 63 - 1 ->
  max_iters + 1 - n_iters <= Z.of_nat fuel ->
  lloyd_loop kd_query xy w fuel max_iters n_nodes n_iters rounds node_xy
    <> Err OutOfFuel.
Proof.
  revert n_iters rounds node_xy.
  induction fuel as [|fuel IH]; intros n_iters rounds node_xy Hlo Hmax Hfuel H;
    rewrite lloyd_loop_eq in H;
    (apply bind_Err in H as [H | (r & Hr & H)];
     [apply lloyd_round_Err in H as [H | [H | H]]; discriminate |]);
    destruct (PrimFloat.eqb (r_delta r) fzero); try discriminate;
    destruct (Z.gtb_spec n_iters max_iters) as [Hgt | Hle]; try discriminate.
  - lia.
  - revert H. apply IH; rewrite ?wrap64_small by lia; lia.
Qed.

Theorem lloyd_fuel_suffices (node_xy : list point) (max_iters : Z) :
  max_iters < 2 ^ 63 - 1 ->
  lloyd_frame kd_query xy w node_xy max_iters <> Err OutOfFuel.
Proof.
  intros Hmax. unfold lloyd_frame. apply lloyd_loop_fuel; lia.
Qed.

(** The round budget as the loop implements it: a counter that starts at
    0 and is tested with [>] after the round is done. *)
Theorem lloyd_round_budget (node_xy : list point) (max_iters : Z) (f : frame) :
  0 <= max_iters < 2 ^ 63 - 1 ->
  lloyd_frame kd_query xy w node_xy max_iters = Ok f ->
  f_n_iters f = Z.of_nat (f_rounds f) - 1 /\
  Z.of_nat (f_rounds f) <= max_iters + 2 /\
  (f_converged f = false -> Z.of_nat (f_rounds f) = max_iters + 2).
Proof.
  intros Hmax H. unfold lloyd_frame in H.
  apply lloyd_loop_Ok in H
    as (k & _ & Hrounds & _ & _ & _ & _ & Hbudget & _ & Hcount); [| reflexivity].
  destruct Hcount as [Hn Hcases]; [lia | lia |].
  split; [lia |]. split; [destruct Hcases; lia |].
  intros Hc. specialize (Hbudget Hc). destruct Hcases; lia.
Qed.

End Loop.

(** ** Squared displacement and finiteness *)

Lemma sq_displacement_self (ns : list point) :
  Forall finite_point ns -> sq_displacement ns ns = fzero.
Proof.
  unfold sq_displacement. induction 1 as [|n ns [Hx Hy] _ IH]; [reflexivity |].
  simpl. rewrite (fsub_diag _ Hx), (fsub_diag _ Hy).
  change (fzero + (fzero * fzero + fzero * fzero))%float with fzero. exact IH.
Qed.

Lemma sq_displacement_finite_from (acc : float) (ons : list (point * point)) :
  finite
    (foldl (fun d on =>
              let dx := (fst (fst on) - fst (snd on))%float in
              let dy := (snd (fst on) - snd (snd on))%float in
              (d + (dx * dx + dy * dy))%float) acc ons) = true ->
  finite acc = true /\ Forall (fun on => finite_point (snd on)) ons.
Proof.
  revert acc. induction ons as [|[o n] ons IH]; intros acc H; simpl in H.
  - split; [exact H | constructor].
  - apply IH in H as [H Hrest]. apply finite_add in H as [Hacc H].
    apply finite_add in H as [Hx Hy].
    apply finite_mul in Hx as [Hx _]. apply finite_sub in Hx as [_ Hx].
    apply finite_mul in Hy as [Hy _]. apply finite_sub in Hy as [_ Hy].
    split; [exact Hacc |]. constructor; [split; assumption | exact Hrest].
Qed.

(** A zero total squared displacement leaves no NaN and no infinity among
    the new node coordinates. *)
Lemma sq_displacement_zero_finite (orig new : list point) :
  length orig = length new ->
  PrimFloat.eqb (sq_displacement orig new) fzero = true ->
  Forall finite_point new.
Proof.
  intros Hlen H. apply eqb_zero_finite, sq_displacement_finite_from in H as [_ H].
  rewrite Forall_lookup in H. apply Forall_lookup. intros i n Hn.
  destruct (lookup_lt_is_Some_2 orig i) as [o Ho].
  { rewrite Hlen. by eapply lookup_lt_Some. }
  apply (H i (o, n)). apply lookup_zip_with_Some. exists o, n. done.
Qed.

Lemma displacement_total (orig new : list point) (k : nat) :
  (k <= length orig)%nat -> (k <= length new)%nat ->
  exists d, for_each (displacement_node orig new) (seq 0 k) fzero = Ok d.
Proof.
  induction k as [|k IH]; intros Ho Hn; [by exists fzero |].
  destruct IH as [d Hd]; [lia | lia |].
  destruct (lookup_lt_is_Some_2 orig k) as [o Hok]; [lia |].
  destruct (lookup_lt_is_Some_2 new k) as [n Hnk]; [lia |].
  eexists. apply for_each_snoc. exists d. split; [exact Hd |].
  unfold displacement_node, get. rewrite Hok. simpl. rewrite Hnk. reflexivity.
Qed.

(** ** The reference index *)

Lemma exhaustive_query_Some (nodes pts : list point) (idx : list nat) :
  exhaustive_query nodes pts = Some idx -> idx = map (nearest nodes) pts.
Proof.
  unfold exhaustive_query. destruct nodes; [discriminate |].
  destruct (forallb _ _); [| discriminate]. by intros [= <-].
Qed.

Lemma exhaustive_one_index_per_point : one_index_per_point exhaustive_query.
Proof.
  intros nodes pts idx H. apply exhaustive_query_Some in H as ->.
  apply length_map.
Qed.



(** Over a single node the reference index answers node 0 for every
    query point. *)
Lemma nearest_single_node (n : point) (pts : list point) :
  map (nearest [n]) pts = replicate (length pts) 0%nat.
Proof.
  induction pts as [|p pts IH]; [reflexivity |]. simpl. f_equal. exact IH.
Qed.

(** The scan, started after the nodes of [pre] with their best as
    candidate, ends on a node of the array that no node is strictly nearer
    than, and that every node before it is strictly farther than (or at a
    NaN distance). *)
Lemma nearest_from_spec (p : point) (suf pre : list point) (best : nat) (nb : point) :
  pre !! best = Some nb ->
  (forall k n, pre !! k = Some n ->
     PrimFloat.ltb (dist2 p n) (dist2 p nb) = false /\
     ((k < best)%nat -> farther_or_nan (dist2 p nb) (dist2 p n))) ->
  exists nc,
    (pre ++ suf) !! fst (nearest_from p suf (length pre) best (dist2 p nb)) = Some nc /\
    forall k n, (pre ++ suf) !! k = Some n ->
      PrimFloat.ltb (dist2 p n) (dist2 p nc) = false /\
      ((k < fst (nearest_from p suf (length pre) best (dist2 p nb)))%nat ->
       farther_or_nan (dist2 p nc) (dist2 p n)).
Proof.
  revert pre best nb. induction suf as [|n suf IH]; intros pre best nb Hbest Hpre; simpl.
  - exists nb. rewrite app_nil_r. split; [exact Hbest | exact Hpre].
  - assert (Hlen : length (pre ++ [n]) = S (length pre))
      by (rewrite length_app; simpl; lia).
    rewrite (cons_middle n pre suf), app_assoc.
    destruct (PrimFloat.ltb (dist2 p n) (dist2 p nb)) eqn:Hlt; rewrite <- Hlen.
    + apply IH.
      * rewrite lookup_app_r by lia. by rewrite Nat.sub_diag.
      * intros k n' Hk. apply lookup_app_Some in Hk as [Hk | [Hge Hk]].
        -- destruct (Hpre k n' Hk) as [Hnot _].
           pose proof (fltb_improves _ _ _ Hlt Hnot) as Hfar.
           split; [exact (proj1 (farther_or_nan_not_nearer _ _ Hfar)) | by intros _].
        -- destruct (k - length pre)%nat as [|?] eqn:E; [| discriminate].
           injection Hk as <-. split; [| lia].
           rewrite ltb_spec. destruct (Prim2SF (dist2 p n)) as [[]|[]| |[] m e];
             try reflexivity; unfold SFltb, SFcompare; by_float_cases.
    + apply IH.
      * by apply lookup_app_l_Some.
      * intros k n' Hk. apply lookup_app_Some in Hk as [Hk | [Hge Hk]].
        -- exact (Hpre k n' Hk).
        -- destruct (k - length pre)%nat as [|?] eqn:E; [| discriminate].
           injection Hk as <-. split; [exact Hlt |].
           apply lookup_lt_Some in Hbest. lia.
Qed.

(** The reference index returns a nearest node, and the lowest index among
    the nearest: no node is strictly nearer than the chosen one, and no
    node before it is at the same distance. *)
Lemma nearest_lowest_index (nodes : list point) (p : point) :
  nodes <> [] ->
  exists nc, nodes !! nearest nodes p = Some nc /\
    forall k n, nodes !! k = Some n ->
      PrimFloat.ltb (dist2 p n) (dist2 p nc) = false /\
      ((k < nearest nodes p)%nat -> PrimFloat.eqb (dist2 p n) (dist2 p nc) = false).
Proof.
  destruct nodes as [|n0 nodes]; [done | intros _]. unfold nearest.
  destruct (nearest_from_spec p nodes [n0] 0 n0 eq_refl) as (nc & Hc & Hall).
  { intros [|k] n Hk; [| discriminate]. injection Hk as <-. split; [| lia].
    rewrite ltb_spec. destruct (Prim2SF (dist2 p n0)) as [[]|[]| |[] m e];
      try reflexivity; unfold SFltb, SFcompare; by_float_cases. }
  simpl in Hc, Hall. exists nc. split; [exact Hc |].
  intros k n Hk. destruct (Hall k n Hk) as [Hnot Hfar]. split; [exact Hnot |].
  intros Hlt. exact (proj2 (farther_or_nan_not_nearer _ _ (Hfar Hlt))).
Qed.

(** ** The whole call *)

Section Call.

Variable kd_query : list point -> list point -> option (list nat).
Variable xy : list point.
Variable w : list float.

Lemma lloyd_Ok (node_xy : list point) (max_iters : Z) (ns : list point)
    (idx : list nat) (c : bool) :
  lloyd kd_query xy w node_xy max_iters = Ok (ns, idx, c) <->
  exists f, lloyd_frame kd_query xy w node_xy max_iters = Ok f /\
    f_nodes f = ns /\ f_idx f = idx /\ f_converged f = c.
Proof.
  unfold lloyd. rewrite bind_Ok. split.
  - intros (f & Hf & [= <- <- <-]). by exists f.
  - intros (f & Hf & <- & <- & <-). by exists f.
Qed.

Lemma iterate_rounds_length (k n_nodes : nat) (node_xy ns : list point) :
  length node_xy = n_nodes ->
  iterate_rounds kd_query xy w k n_nodes node_xy = Ok ns ->
  length ns = n_nodes.
Proof.
  revert node_xy. induction k as [|k IH]; intros node_xy Hlen H; simpl in H.
  - by injection H as <-.
  - apply bind_Ok in H as (r & Hr & H).
    apply (IH (r_nodes r)); [by eapply round_nodes_length | exact H].
Qed.

Lemma lloyd_round_usable (n_nodes : nat) (node_xy : list point) (idx : list nat) :
  node_xy <> [] ->
  length node_xy = n_nodes ->
  kd_query node_xy xy = Some idx ->
  usable_arrays idx w (length xy) n_nodes ->
  exists r, lloyd_round kd_query xy w n_nodes node_xy = Ok r.
Proof.
  intros Hne Hlen Hq Huse.
  assert (Hw : (length xy <= length w)%nat).
  { destruct (length xy) as [|k] eqn:E; [lia |].
    destruct (Huse k ltac:(lia)) as [_ [wi Hwi]].
    apply lookup_lt_Some in Hwi. lia. }
  destruct (accumulate_total xy w idx n_nodes (length xy)) as [a Ha];
    [lia | exact Hw | intros i Hi; exact (proj1 (Huse i Hi)) |].
  destruct (accumulate_upto _ _ _ _ _ _ Ha) as (Lp & Lw & Lx & _).
  destruct (centroids_total a n_nodes Lp Lx Lw) as [ns Hns].
  destruct (centroids_upto _ _ _ _ _ Hns) as (Lns & _).
  destruct (displacement_total node_xy ns n_nodes) as [d Hd]; [lia | lia |].
  exists (RoundOut ns idx d). apply lloyd_round_Ok. exists a.
  repeat split; assumption.
Qed.




(** C4. A call returns [converged = true] exactly when the total squared
    displacement of the round it returns from -- the sum over the nodes
    of the squared distance between the position before and after that
    round -- compares equal to zero; every earlier round had a
    displacement that did not. *)
Theorem converged_iff_zero_displacement (node_xy : list point) (max_iters : Z)
    (ns : list point) (idx : list nat) (c : bool) :
  lloyd kd_query xy w node_xy max_iters = Ok (ns, idx, c) ->
  exists (k : nat) (orig : list point),
    iterate_rounds kd_query xy w k (length node_xy) node_xy = Ok orig /\
    lloyd_round kd_query xy w (length node_xy) orig
      = Ok (RoundOut ns idx (sq_displacement orig ns)) /\
    (c = true <-> PrimFloat.eqb (sq_displacement orig ns) fzero = true) /\
    (forall k', (k' < k)%nat ->
       exists ns' r,
         iterate_rounds kd_query xy w k' (length node_xy) node_xy = Ok ns' /\
         lloyd_round kd_query xy w (length node_xy) ns' = Ok r /\
         PrimFloat.eqb (sq_displacement ns' (r_nodes r)) fzero = false).
Proof.
  intros H. apply lloyd_Ok in H as (f & Hf & <- & <- & <-).
  unfold lloyd_frame in Hf.
  apply lloyd_loop_Ok in Hf
    as (k & _ & _ & Hiter & Horig & Hlast & Hconv & _ & Hmoved & _); [| reflexivity].
  pose proof (round_delta _ _ _ _ _ _ Horig Hlast) as Hd. simpl in Hd.
  exists k, (f_orig f). split; [exact Hiter |].
  split; [rewrite <- Hd; exact Hlast |]. split.
  - rewrite Hconv, Hd. reflexivity.
  - intros k' Hk'. destruct (Hmoved k' Hk') as (ns' & r & H1 & H2 & H3).
    exists ns', r. split; [exact H1 |]. split; [exact H2 |].
    rewrite <- (round_delta _ _ _ _ _ _ (iterate_rounds_length _ _ _ _ eq_refl H1) H2).
    exact H3.
Qed.

(** C7. When the index answers with one node per query point, the
    assignment is total after every round and in the returned triple:
    it has one entry for each point index below [n_points], and every
    entry is a node index below [n_nodes]. *)
Theorem assignment_total (node_xy : list point) :
  one_index_per_point kd_query ->
  (forall ns r,
     lloyd_round kd_query xy w (length node_xy) ns = Ok r ->
     total_assignment (length xy) (length node_xy) (r_idx r)) /\
  (forall max_iters ns idx c,
     lloyd kd_query xy w node_xy max_iters = Ok (ns, idx, c) ->
     total_assignment (length xy) (length node_xy) idx).
Proof.
  intros Hq. split.
  - intros ns r H. by eapply round_total_assignment.
  - intros max_iters ns idx c H. apply lloyd_Ok in H as (f & Hf & _ & <- & _).
    unfold lloyd_frame in Hf.
    apply lloyd_loop_Ok in Hf as (k & _ & _ & _ & _ & Hlast & _); [| reflexivity].
    apply (round_total_assignment _ _ _ _ _ _ Hq Hlast).
Qed.


End Call.

(** ** A single node *)

Lemma members_replicate (n k : nat) :
  (k <= n)%nat -> members (replicate n 0%nat) 0 k = seq 0 k.
Proof.
  induction k as [|k IH]; intros Hk; [reflexivity |].
  rewrite members_S, seq_S, IH by lia.
  rewrite decide_True; [reflexivity |]. apply lookup_replicate_2. lia.
Qed.

Section SingleNode.

Variable kd_query : list point -> list point -> option (list nat).
Variable xy : list point.
Variable w : list float.

Hypothesis some_point : xy <> [].
Hypothesis enough_weights : (length xy <= length w)%nat.

(** With one node to which the index assigns every point, a round moves
    the node to the weighted centroid of all the points. *)
Lemma single_node_round (n : point) :
  kd_query [n] xy = Some (replicate (length xy) 0%nat) ->
  lloyd_round kd_query xy w 1 [n]
  = Ok (RoundOut [overall_centroid xy w] (replicate (length xy) 0%nat)
          (sq_displacement [n] [overall_centroid xy w])).
Proof.
  intros Hq.
  destruct (accumulate_total xy w (replicate (length xy) 0%nat) 1 (length xy))
    as [a Ha]; [lia | exact enough_weights | |].
  { intros i Hi. exists 0%nat. split; [by apply lookup_replicate_2 | lia]. }
  destruct (accumulate_upto _ _ _ _ _ _ Ha) as (Lp & Lw & Lx & _).
  destruct (centroids_total a 1 Lp Lx Lw) as [ns Hns].
  destruct (centroids_upto _ _ _ _ _ Hns) as (Lns & _).
  destruct (displacement_total [n] ns 1) as [d Hd]; [simpl; lia | lia |].
  assert (H : lloyd_round kd_query xy w 1 [n]
              = Ok (RoundOut ns (replicate (length xy) 0%nat) d)).
  { apply lloyd_round_Ok. exists a. repeat split; try assumption. discriminate. }
  pose proof (round_delta _ _ _ 1%nat [n] _ eq_refl H) as Hdelta. simpl in Hdelta.
  destruct (round_node _ _ _ _ _ _ 0%nat H ltac:(lia)) as [(_ & Hnode) | (E & _)];
    simpl in *.
  - rewrite members_replicate in Hnode by lia.
    change (weighted_centroid xy w (seq 0 (length xy)))
      with (overall_centroid xy w) in Hnode.
    destruct ns as [|c [|? ?]]; try (simpl in Lns; lia).
    injection Hnode as ->. rewrite H, Hdelta. reflexivity.
  - rewrite members_replicate in E by lia.
    destruct xy; [done | discriminate].
Qed.

(** The condition on the index cannot be dropped: when the library
    answers the first point with an index other than 0 -- it answers
    [n_nodes] for a point it finds no neighbour for -- the first
    [node_population[idx[i]] += 1] is out of bounds. *)
Lemma single_node_stray_index (n0 : point) (idx : list nat) (j : nat) (max_iters : Z) :
  kd_query [n0] xy = Some idx ->
  idx !! 0%nat = Some (S j) ->
  lloyd kd_query xy w [n0] max_iters = Err IndexError.
Proof.
  intros Hq Hj.
  assert (Hr : lloyd_round kd_query xy w 1 [n0] = Err IndexError).
  { unfold lloyd_round. cbn [copy_rows mbind result_bind]. rewrite Hq.
    cbn [query_result mbind result_bind].
    destruct xy as [|p ps]; [done |].
    unfold accumulate. cbn [length seq for_each].
    assert (E : accumulate_point (p :: ps) w idx
                  (Accum (zeros_long 1) (zeros_double 1) (zeros_xy 1)) 0
                = Err IndexError).
    { unfold accumulate_point, get. rewrite Hj. simpl. destruct j; reflexivity. }
    rewrite E. reflexivity. }
  unfold lloyd, lloyd_frame. rewrite lloyd_loop_eq. cbn [length].
  rewrite Hr. reflexivity.
Qed.

(** C5 (amended). With one node, at least one point, a weight for every
    point, an index that assigns every point to node 0 both from the
    initial node and from the weighted centroid of all the points, that
    centroid finite and a budget [0 <= max_iters], the call returns
    [converged = true], the centroid as its node and node 0 for every
    point.  It returns from its first round exactly when the initial node
    is at zero squared displacement from the centroid, and from its
    second round otherwise. *)
Theorem single_node_centroid (n0 : point) (max_iters : Z) :
  kd_query [n0] xy = Some (replicate (length xy) 0%nat) ->
  kd_query [overall_centroid xy w] xy = Some (replicate (length xy) 0%nat) ->
  finite_point (overall_centroid xy w) ->
  0 <= max_iters ->
  exists f,
    lloyd_frame kd_query xy w [n0] max_iters = Ok f /\
    f_nodes f = [overall_centroid xy w] /\
    f_idx f = replicate (length xy) 0%nat /\
    f_converged f = true /\
    (f_rounds f = 1%nat \/ f_rounds f = 2%nat) /\
    (f_rounds f = 1%nat <->
       PrimFloat.eqb (sq_displacement [n0] [overall_centroid xy w]) fzero = true).
Proof.
  intros Hq0 Hqc Hc Hmax. unfold lloyd_frame. simpl length.
  rewrite lloyd_loop_eq, (single_node_round n0 Hq0). simpl.
  destruct (PrimFloat.eqb (sq_displacement [n0] [overall_centroid xy w]) fzero) eqn:E.
  - eexists. split; [reflexivity |]. simpl. repeat split; auto.
  - destruct (Z.gtb_spec 0 max_iters) as [Hgt | _]; [lia |].
    destruct (Z.to_nat (max_iters + 1)) as [|fuel] eqn:F; [lia |].
    rewrite lloyd_loop_eq, (single_node_round _ Hqc). simpl.
    rewrite sq_displacement_self by (by constructor).
    change (PrimFloat.eqb fzero fzero) with true. simpl.
    eexists. split; [reflexivity |]. simpl. repeat split; auto; discriminate.
Qed.

End SingleNode.

(** ** Running again from a converged result *)

Section Rerun.

Variable kd_query : list point -> list point -> option (list nat).
Variable xy : list point.
Variable w : list float.

(** C6 (amended). When a call returns [converged = true] and the index
    gives the returned nodes the returned assignment, a second call
    started from the returned nodes returns from its first round, with a
    displacement of exactly zero and the same nodes and assignment. *)
Theorem rerun_converges_at_once (node_xy : list point) (max_iters max_iters' : Z)
    (f : frame) :
  lloyd_frame kd_query xy w node_xy max_iters = Ok f ->
  f_converged f = true ->
  kd_query (f_nodes f) xy = Some (f_idx f) ->
  lloyd_frame kd_query xy w (f_nodes f) max_iters'
    = Ok (Frame (f_nodes f) (f_idx f) true 0 (f_nodes f) fzero 1).
Proof.
  intros H Hc Hstable. unfold lloyd_frame in H.
  apply lloyd_loop_Ok in H
    as (k & _ & _ & _ & Horig & Hlast & Hconv & _); [| reflexivity].
  pose proof (round_nodes_length _ _ _ _ _ _ Hlast) as Hlen. simpl in Hlen.
  pose proof (round_delta _ _ _ _ _ _ Horig Hlast) as Hd. simpl in Hd.
  assert (Hfin : Forall finite_point (f_nodes f)).
  { apply (sq_displacement_zero_finite (f_orig f)); [congruence |].
    rewrite <- Hd, <- Hconv. exact Hc. }
  assert (Hround : lloyd_round kd_query xy w (length node_xy) (f_nodes f)
                   = Ok (RoundOut (f_nodes f) (f_idx f) fzero)).
  { apply lloyd_round_Ok in Hlast as (a & _ & Ha & Hcs & _ & Hne). simpl in *.
    apply lloyd_round_Ok. exists a. simpl.
    split; [exact Hstable |]. split; [exact Ha |]. split; [exact Hcs |].
    split;
      [| intros E; rewrite E in Hlen; destruct (f_orig f);
         [done | simpl in Hlen, Horig; lia]].
    destruct (displacement_total (f_nodes f) (f_nodes f) (length node_xy))
      as [d Hdisp]; [lia | lia |].
    unfold displacement. rewrite Hdisp. f_equal.
    rewrite <- Hlen in Hdisp. apply displacement_Ok in Hdisp; [| reflexivity].
    rewrite Hdisp. by apply sq_displacement_self. }
  unfold lloyd_frame. rewrite lloyd_loop_eq, Hlen, Hround. reflexivity.
Qed.

End Rerun.


(** ** Concrete runs *)

Import Examples.

(** First round of the line example: node 1 owns the points 1..5, of total
    weight 5 and first moment 15, and moves to (3, 0). *)
Lemma round_weighted_centroid_witness :
  r_nodes (RoundOut [(0, 0); (3, 0)]%float [0; 1; 1; 1; 1; 1]%nat 4%float) !! 1%nat
  = Some (weighted_centroid line_xy line_w (members [0; 1; 1; 1; 1; 1]%nat 1 6)).
Proof.
  apply (round_weighted_centroid exhaustive_query line_xy line_w 2 line_nodes
           (RoundOut [(0, 0); (3, 0)]%float [0; 1; 1; 1; 1; 1]%nat 4%float) 1).
  - vm_compute. reflexivity.
  - vm_compute. reflexivity.
Defined.

(** A second node far from both points of the pair example owns no point
    and is sent to the origin. *)
Lemma round_empty_node_origin_witness :
  r_nodes (RoundOut [(1, 0); (0, 0)]%float [0; 0]%nat 20001%float) !! 1%nat
  = Some (fzero, fzero).
Proof.
  apply (round_empty_node_origin exhaustive_query pair_xy pair_w 2
           [(0, 0); (100, 100)]%float
           (RoundOut [(1, 0); (0, 0)]%float [0; 0]%nat 20001%float) 1).
  - vm_compute. reflexivity.
  - lia.
  - vm_compute. reflexivity.
Defined.

(** C2, as stated, fails: a node that owns one point of weight zero has
    weight sum zero and population one; the round divides 0.0 by 0.0 and
    stores NaN, not (0, 0). *)
Lemma zero_weight_node_nan :
  members [0%nat] 0 1 = [0%nat] /\
  weight_total null_w (members [0%nat] 0 1) = fzero /\
  exhaustive_query null_node null_xy = Some [0%nat] /\
  lloyd_round exhaustive_query null_xy null_w 1 null_node
    = Ok (RoundOut [(nan, nan)] [0%nat] nan).
Proof. vm_compute. repeat split. Qed.

(** C3: with [max_iters = 0] the line example runs two rounds, one more
    than [max_iters + 1], before it returns [converged = false]. *)
Theorem lloyd_budget_overrun :
  exists f,
    lloyd_frame exhaustive_query line_xy line_w line_nodes 0 = Ok f /\
    f_nodes f = [(0.5, 0); (3.5, 0)]%float /\
    f_converged f = false /\
    f_rounds f = 2%nat /\
    ~ (Z.of_nat (f_rounds f) <= 0 + 1).
Proof.
  eexists. split; [vm_compute; reflexivity |]. simpl.
  repeat split. lia.
Qed.

Lemma converged_iff_zero_displacement_witness :
  exists (k : nat) (orig : list point),
    iterate_rounds exhaustive_query pair_xy pair_w k (length pair_node) pair_node = Ok orig /\
    lloyd_round exhaustive_query pair_xy pair_w (length pair_node) orig
      = Ok (RoundOut [(1, 0)]%float [0; 0]%nat (sq_displacement orig [(1, 0)]%float)) /\
    (true = true <-> PrimFloat.eqb (sq_displacement orig [(1, 0)]%float) fzero = true) /\
    (forall k', (k' < k)%nat ->
       exists ns' r,
         iterate_rounds exhaustive_query pair_xy pair_w k' (length pair_node) pair_node
           = Ok ns' /\
         lloyd_round exhaustive_query pair_xy pair_w (length pair_node) ns' = Ok r /\
         PrimFloat.eqb (sq_displacement ns' (r_nodes r)) fzero = false).
Proof.
  apply (converged_iff_zero_displacement exhaustive_query pair_xy pair_w pair_node 10).
  vm_compute. reflexivity.
Defined.

Lemma assignment_total_witness :
  total_assignment (length line_xy) (length line_nodes) [0; 0; 1; 1; 1; 1]%nat.
Proof.
  destruct (assignment_total exhaustive_query line_xy line_w line_nodes
              exhaustive_one_index_per_point) as [_ H].
  apply (H 0 [(0.5, 0); (3.5, 0)]%float [0; 0; 1; 1; 1; 1]%nat false).
  vm_compute. reflexivity.
Defined.

(** C5, as stated, fails on the spec's own example: the call returns the
    node (1, 0) with [converged = true], but from its second round. *)
Lemma single_node_needs_second_round :
  lloyd_frame exhaustive_query pair_xy pair_w pair_node 10
  = Ok (Frame [(1, 0)]%float [0; 0]%nat true 1 [(1, 0)]%float fzero 2) /\
  ~ (exists f, lloyd_frame exhaustive_query pair_xy pair_w pair_node 10 = Ok f /\
               f_rounds f = 1%nat).
Proof.
  assert (H : lloyd_frame exhaustive_query pair_xy pair_w pair_node 10
              = Ok (Frame [(1, 0)]%float [0; 0]%nat true 1 [(1, 0)]%float fzero 2))
    by (vm_compute; reflexivity).
  split; [exact H |]. intros (f & Hf & Hr). rewrite H in Hf.
  injection Hf as <-. discriminate.
Qed.

Lemma single_node_centroid_witness :
  exists f,
    lloyd_frame exhaustive_query pair_xy pair_w pair_node 10 = Ok f /\
    f_nodes f = [(1, 0)]%float /\
    f_idx f = [0; 0]%nat /\
    f_converged f = true /\
    f_rounds f = 2%nat.
Proof.
  destruct (single_node_centroid exhaustive_query pair_xy pair_w
              ltac:(discriminate) ltac:(simpl; lia) (0, 0)%float 10)
    as (f & Hf & Hnodes & Hidx & Hconv & Hrounds & Hfirst).
  - vm_compute. reflexivity.
  - vm_compute. reflexivity.
  - split; reflexivity.
  - lia.
  - exists f. split; [exact Hf |]. split; [exact Hnodes |]. split; [exact Hidx |].
    split; [exact Hconv |]. destruct Hrounds as [H1 | H2]; [| exact H2].
    apply Hfirst in H1. vm_compute in H1. discriminate.
Defined.

(** C6, as stated, fails.  In the tiny example both nodes move by [2^-540]
    in the first round; the squares underflow, the displacement is zero
    and the call returns [converged = true].  Seen from the returned
    nodes the middle point is nearer to node 1, so a second call moves
    both nodes in its first round and returns from its second. *)
Lemma rerun_moves_after_underflow :
  exists f f',
    lloyd_frame exhaustive_query tiny_xy tiny_w tiny_nodes 5 = Ok f /\
    f_converged f = true /\ f_rounds f = 1%nat /\
    f_idx f = [0; 0; 1]%nat /\ f_nodes f <> tiny_nodes /\
    exhaustive_query (f_nodes f) tiny_xy = Some [0; 1; 1]%nat /\
    lloyd_frame exhaustive_query tiny_xy tiny_w (f_nodes f) 5 = Ok f' /\
    f_converged f' = true /\ f_rounds f' = 2%nat /\
    (exists r, lloyd_round exhaustive_query tiny_xy tiny_w 2 (f_nodes f) = Ok r /\
               PrimFloat.eqb (r_delta r) fzero = false).
Proof.
  eexists. eexists. split; [vm_compute; reflexivity |]. simpl.
  split; [reflexivity |]. split; [reflexivity |]. split; [reflexivity |].
  split; [vm_compute; discriminate |].
  split; [vm_compute; reflexivity |].
  split; [vm_compute; reflexivity |]. simpl.
  split; [reflexivity |]. split; [reflexivity |].
  eexists. split; [vm_compute; reflexivity | vm_compute; reflexivity].
Qed.

Lemma rerun_converges_at_once_witness :
  lloyd_frame exhaustive_query pair_xy pair_w [(1, 0)]%float 7
  = Ok (Frame [(1, 0)]%float [0; 0]%nat true 0 [(1, 0)]%float fzero 1).
Proof.
  apply (rerun_converges_at_once exhaustive_query pair_xy pair_w pair_node 10 7
           (Frame [(1, 0)]%float [0; 0]%nat true 1 [(1, 0)]%float fzero 2)).
  - vm_compute. reflexivity.
  - reflexivity.
  - vm_compute. reflexivity.
Defined.


(** Nor is a weight array that is longer than the point array. *)
Lemma surplus_weights_accepted :
  lloyd exhaustive_query pair_xy [1; 1; 7]%float pair_node 3
  = Ok ([(1, 0)]%float, [0; 0]%nat, true).
Proof. vm_compute. reflexivity. Qed.

(** Nor is a weight that is not finite: the first round completes, with a
    NaN node, and a call with a negative budget returns it. *)
Lemma nonfinite_weight_accepted :
  lloyd_round exhaustive_query pair_xy [infinity; 1]%float 1 pair_node
    = Ok (RoundOut [(nan, nan)] [0; 0]%nat nan) /\
  lloyd exhaustive_query pair_xy [infinity; 1]%float pair_node (-1)
    = Ok ([(nan, nan)], [0; 0]%nat, false).
Proof. vm_compute. split; reflexivity. Qed.


(** ** The caller's buffers *)

Section Keeps.

Variable D : gset nat.

Lemma keeps_ret {A : Type} (a : A) (Q : A -> Prop) : Q a -> keeps D (mret a) Q.
Proof.
  intros HQ m Hm. simpl. split; [exact Hm |]. split; [done |].
  by intros a' [= <-].
Qed.

Lemma keeps_raise {A : Type} (e : error) (Q : A -> Prop) : keeps D (raise e) Q.
Proof. intros m Hm. simpl. split; [exact Hm |]. split; done. Qed.

Lemma keeps_bind {A B : Type} (p : prog A) (k : A -> prog B)
    (Q : A -> Prop) (R : B -> Prop) :
  keeps D p Q -> (forall a, Q a -> keeps D (k a) R) -> keeps D (p ≫= k) R.
Proof.
  intros Hp Hk m Hm. destruct (Hp m Hm) as (Hdom & Hsame & HQ).
  unfold mbind, prog_bind. destruct (p m) as [[a|e] m'] eqn:E; simpl in *.
  - destruct (Hk a (HQ a eq_refl) m' Hdom) as (Hdom' & Hsame' & HR).
    split; [exact Hdom' |]. split; [| exact HR].
    intros l Hl. rewrite Hsame' by exact Hl. by apply Hsame.
  - split; [exact Hdom |]. split; [exact Hsame | done].
Qed.

(** [alloc] writes at a location that was not in use. *)
Lemma keeps_alloc (b : buffer) : keeps D (alloc b) (fun l => l ∉ D).
Proof.
  intros m Hm. unfold alloc. simpl.
  pose proof (is_fresh (dom m)) as Hfresh.
  split; [rewrite dom_insert; set_solver |]. split.
  - intros l Hl. apply lookup_insert_ne. set_solver.
  - intros a [= <-]. set_solver.
Qed.

Lemma keeps_read {A : Type} (proj : buffer -> option (list A)) (l : nat) :
  keeps D (read proj l) (fun _ => True).
Proof.
  intros m Hm. unfold read. destruct (m !! l ≫= proj); simpl; done.
Qed.

Lemma keeps_load {A : Type} (proj : buffer -> option (list A)) (l i : nat) :
  keeps D (load proj l i) (fun _ => True).
Proof.
  intros m Hm. unfold load. destruct (m !! l ≫= proj); simpl; done.
Qed.

(** [a[i] = v] changes the buffer of [a] only. *)
Lemma keeps_store {A : Type} (proj : buffer -> option (list A))
    (inj : list A -> buffer) (l i : nat) (v : A) :
  l ∉ D -> keeps D (store proj inj l i v) (fun _ => True).
Proof.
  intros Hl m Hm. unfold store.
  destruct (m !! l ≫= proj) as [c|]; simpl; [| done].
  destruct (decide (i < length c)%nat); simpl; [| done].
  split; [rewrite dom_insert; set_solver |]. split; [| done].
  intros l' Hl'. apply lookup_insert_ne. set_solver.
Qed.

Lemma keeps_for_each {S : Type} (body : S -> nat -> prog S) (range : list nat) (s : S) :
  (forall s' i, keeps D (body s' i) (fun _ => True)) ->
  keeps D (for_each_m body range s) (fun _ => True).
Proof.
  intros Hbody. revert s. induction range as [|i range IH]; intros s; simpl.
  - by apply keeps_ret.
  - eapply keeps_bind; [apply Hbody | intros s' _; apply IH].
Qed.

(** The copy writes a new buffer, if any. *)
Lemma keeps_copy (a : nat) : keeps D (copy_m a) (fun l => l ∉ D).
Proof.
  unfold copy_m. eapply keeps_bind; [apply keeps_read | intros rows _].
  destruct (copy_rows rows); [apply keeps_alloc | apply keeps_raise].
Qed.

Variable kd_query : list point -> list point -> option (list nat).
Variable xy : nat.
Variable w : nat.

Lemma keeps_query (node_xy : nat) :
  keeps D (query_m kd_query xy node_xy) (fun l => l ∉ D).
Proof.
  unfold query_m.
  eapply keeps_bind; [apply keeps_read | intros nodes _].
  eapply keeps_bind; [apply keeps_read | intros pts _].
  destruct (kd_query nodes pts); [apply keeps_alloc | apply keeps_raise].
Qed.

(** A round writes into the arrays it has allocated itself. *)
Lemma keeps_round (n_nodes n_points node_xy : nat) :
  keeps D (lloyd_round_m kd_query xy w n_nodes n_points node_xy) (fresh_pair D).
Proof.
  unfold lloyd_round_m.
  eapply keeps_bind; [apply keeps_copy | intros orig Horig].
  eapply keeps_bind; [apply keeps_query | intros idx Hidx].
  eapply keeps_bind; [apply keeps_alloc | intros pop Hpop].
  eapply keeps_bind; [apply keeps_alloc | intros new Hnew].
  eapply keeps_bind; [apply keeps_alloc | intros ws Hws].
  eapply keeps_bind.
  { apply keeps_for_each. intros ? i. unfold accumulate_point_m.
    eapply keeps_bind; [apply keeps_load | intros j _].
    eapply keeps_bind; [apply keeps_load | intros c _].
    eapply keeps_bind; [by apply keeps_store | intros ? _].
    eapply keeps_bind; [apply keeps_load | intros wi _].
    eapply keeps_bind; [apply keeps_load | intros s _].
    eapply keeps_bind; [by apply keeps_store | intros ? _].
    eapply keeps_bind; [apply keeps_load | intros p _].
    eapply keeps_bind; [apply keeps_load | intros n _].
    by apply keeps_store. }
  intros ? _. eapply keeps_bind.
  { apply keeps_for_each. intros ? i. unfold centroid_node_m.
    eapply keeps_bind; [apply keeps_load | intros c _].
    destruct (0 <? c); [| by apply keeps_store].
    eapply keeps_bind; [apply keeps_load | intros s _].
    eapply keeps_bind; [apply keeps_load | intros n _].
    by apply keeps_store. }
  intros ? _. eapply keeps_bind.
  { apply keeps_for_each. intros d i. unfold displacement_node_m.
    eapply keeps_bind; [apply keeps_load | intros o _].
    eapply keeps_bind; [apply keeps_load | intros n _].
    by apply keeps_ret. }
  intros delta _. apply keeps_ret. split; assumption.
Qed.

Lemma keeps_loop (fuel : nat) (max_iters : Z) (n_nodes n_points : nat) (n_iters : Z)
    (node_xy : nat) :
  keeps D (lloyd_loop_m kd_query xy w fuel max_iters n_nodes n_points n_iters node_xy)
    (fresh_pair D).
Proof.
  revert n_iters node_xy. induction fuel as [|fuel IH]; intros n_iters node_xy; simpl;
    (eapply keeps_bind; [apply keeps_round | intros [[new idx] delta] [Hnew Hidx]]);
    simpl in Hnew, Hidx;
    (destruct (PrimFloat.eqb delta fzero); [by apply keeps_ret |]);
    (destruct (n_iters >? max_iters); [by apply keeps_ret |]).
  - apply keeps_raise.
  - apply IH.
Qed.

Lemma keeps_lloyd (node_xy : nat) (max_iters : Z) :
  keeps D (lloyd_m kd_query xy w node_xy max_iters) (fresh_pair D).
Proof.
  unfold lloyd_m.
  eapply keeps_bind; [apply keeps_read | intros nodes _].
  eapply keeps_bind; [apply keeps_read | intros pts _].
  eapply keeps_bind; [apply keeps_alloc | intros ? _].
  eapply keeps_bind; [apply keeps_alloc | intros ? _].
  apply keeps_loop.
Qed.

End Keeps.

(** C10. The call does not change its input arrays, whether it returns or
    raises: the buffers of the point coordinates, of the weights and of the
    caller's node coordinates hold after the call what they held before it,
    as does every other buffer that existed; the node array and the
    assignment that the call returns are buffers it has allocated. *)
Theorem lloyd_preserves_inputs
    (kd_query : list point -> list point -> option (list nat))
    (xy w node_xy : nat) (max_iters : Z) (m : memory) (b_xy b_w b_nodes : buffer) :
  m !! xy = Some b_xy ->
  m !! w = Some b_w ->
  m !! node_xy = Some b_nodes ->
  (lloyd_m kd_query xy w node_xy max_iters m).2 !! xy = Some b_xy /\
  (lloyd_m kd_query xy w node_xy max_iters m).2 !! w = Some b_w /\
  (lloyd_m kd_query xy w node_xy max_iters m).2 !! node_xy = Some b_nodes /\
  (forall l, l ∈ dom m ->
     (lloyd_m kd_query xy w node_xy max_iters m).2 !! l = m !! l) /\
  (forall nodes idx converged,
     (lloyd_m kd_query xy w node_xy max_iters m).1 = Ok (nodes, idx, converged) ->
     (nodes ∉ dom m) /\ (idx ∉ dom m)).
Proof.
  intros Hxy Hw Hnodes.
  destruct (keeps_lloyd (dom m) kd_query xy w node_xy max_iters m) as (_ & Hsame & Hnew);
    [done |].
  assert (Hin : forall l b, m !! l = Some b -> l ∈ dom m)
    by (intros l b Hl; apply elem_of_dom; eauto).
  split; [rewrite Hsame by eauto; exact Hxy |].
  split; [rewrite Hsame by eauto; exact Hw |].
  split; [rewrite Hsame by eauto; exact Hnodes |].
  split; [exact Hsame |]. intros nodes idx converged H. exact (Hnew _ H).
Qed.

(** ** The memory embedding computes what the pure embedding computes *)

Lemma bind_run {A B : Type} (p : prog A) (k : A -> prog B) (m m' : memory) (a : A) :
  p m = (Ok a, m') -> (p ≫= k) m = k a m'.
Proof. intros H. unfold mbind, prog_bind. rewrite H. reflexivity. Qed.

Lemma bind_run_Err {A B : Type} (p : prog A) (k : A -> prog B) (m : memory) (e : error) :
  (p m).1 = Err e -> ((p ≫= k) m).1 = Err e.
Proof.
  intros H. unfold mbind, prog_bind. destruct (p m) as [[a|e'] m']; simpl in *; congruence.
Qed.

Lemma store_run {A : Type} (proj : buffer -> option (list A)) (inj : list A -> buffer)
    (l i : nat) (v : A) (m : memory) (b : buffer) (c : list A) :
  m !! l = Some b -> proj b = Some c ->
  store proj inj l i v m =
    if decide (i < length c)%nat then (Ok tt, <[l := inj (<[i := v]> c)]> m)
    else (Err IndexError, m).
Proof. intros Hl Hb. unfold store. rewrite Hl. simpl. rewrite Hb. reflexivity. Qed.

(** A loop in memory follows the pure loop when each step does. *)
Lemma for_each_simulates {S T : Type} (body : S -> nat -> result S)
    (body_m : T -> nat -> prog T) (val : S -> T) (mem_of : S -> memory)
    (range : list nat) (s : S) :
  (forall s i,
     simulates (body s i) (body_m (val s) i (mem_of s))
       (fun s' t m' => t = val s' /\ m' = mem_of s')) ->
  simulates (for_each body range s) (for_each_m body_m range (val s) (mem_of s))
    (fun s' t m' => t = val s' /\ m' = mem_of s').
Proof.
  intros Hstep. revert s. induction range as [|i range IH]; intros s; simpl.
  - exists (val s), (mem_of s). done.
  - specialize (Hstep s i). destruct (body s i) as [s'|e]; simpl in *.
    + destruct Hstep as (t & m' & Hrun & -> & ->).
      rewrite (bind_run _ _ _ _ _ Hrun). apply IH.
    + by apply bind_run_Err.
Qed.

Lemma bind_load {A B : Type} (proj : buffer -> option (list A)) (l i : nat)
    (k : A -> prog B) (m : memory) (c : list A) :
  m !! l ≫= proj = Some c ->
  (load proj l i ≫= k) m =
    match c !! i with
    | Some v => k v m
    | None => (Err IndexError, m)
    end.
Proof.
  intros Hl. unfold mbind at 1, prog_bind, load, get. rewrite Hl.
  destruct (c !! i); reflexivity.
Qed.

Lemma bind_store {A B : Type} (proj : buffer -> option (list A)) (inj : list A -> buffer)
    (l i : nat) (v : A) (k : unit -> prog B) (m : memory) (c : list A) :
  m !! l ≫= proj = Some c ->
  (store proj inj l i v ≫= k) m =
    if decide (i < length c)%nat then k tt (<[l := inj (<[i := v]> c)]> m)
    else (Err IndexError, m).
Proof.
  intros Hl. unfold mbind at 1, prog_bind, store. rewrite Hl.
  destruct (decide (i < length c)%nat); reflexivity.
Qed.

Ltac mem_lookup :=
  unfold accum_memory;
  repeat first [rewrite lookup_insert_eq | rewrite lookup_insert_ne by congruence];
  try eassumption; simpl; try reflexivity.

Section RoundInMemory.

Variable kd_query : list point -> list point -> option (list nat).
Variables (xy : list point) (w : list float) (idx : list nat).

(** The locations of [xy], [w], [idx], and of the three arrays the round
    fills, all different. *)
Variables (l_xy l_w l_idx l_pop l_ws l_new : nat).
Hypothesis distinct : NoDup [l_xy; l_w; l_idx; l_pop; l_ws; l_new].

Variable base : memory.
Hypothesis base_xy : base !! l_xy = Some (DoubleRows xy).
Hypothesis base_w : base !! l_w = Some (Doubles w).
Hypothesis base_idx : base !! l_idx = Some (Indices idx).

Lemma distinct_locations :
  l_xy <> l_pop /\ l_xy <> l_ws /\ l_xy <> l_new /\
  l_w <> l_pop /\ l_w <> l_ws /\ l_w <> l_new /\
  l_idx <> l_pop /\ l_idx <> l_ws /\ l_idx <> l_new /\
  l_pop <> l_ws /\ l_pop <> l_new /\ l_ws <> l_new.
Proof.
  clear -distinct. repeat (apply NoDup_cons in distinct as [? distinct]).
  set_solver.
Qed.

Lemma accumulate_point_simulates (a : accum) (i : nat) :
  simulates (accumulate_point xy w idx a i)
    (accumulate_point_m l_xy l_w l_idx l_pop l_ws l_new tt i
       (accum_memory base l_pop l_ws l_new a))
    (fun a' t m' => t = tt /\ m' = accum_memory base l_pop l_ws l_new a').
Proof.
  destruct distinct_locations
    as (? & ? & ? & ? & ? & ? & ? & ? & ? & ? & ? & ?).
  unfold accumulate_point, accumulate_point_m, get.
  erewrite bind_load by (rewrite bind_Some; eexists; split; [mem_lookup | reflexivity]).
  destruct (idx !! i) as [j|]; simpl; [| reflexivity].
  erewrite bind_load by (rewrite bind_Some; eexists; split; [mem_lookup | reflexivity]).
  destruct (node_population a !! j) as [c|] eqn:Hc; simpl; [| reflexivity].
  erewrite bind_store by (rewrite bind_Some; eexists; split; [mem_lookup | reflexivity]).
  rewrite decide_True by (by eapply lookup_lt_Some).
  erewrite bind_load by (rewrite bind_Some; eexists; split; [mem_lookup | reflexivity]).
  destruct (w !! i) as [wi|]; simpl; [| reflexivity].
  erewrite bind_load by (rewrite bind_Some; eexists; split; [mem_lookup | reflexivity]).
  destruct (weight_sum a !! j) as [s|] eqn:Hs; simpl; [| reflexivity].
  erewrite bind_store by (rewrite bind_Some; eexists; split; [mem_lookup | reflexivity]).
  rewrite decide_True by (by eapply lookup_lt_Some).
  erewrite bind_load by (rewrite bind_Some; eexists; split; [mem_lookup | reflexivity]).
  destruct (xy !! i) as [p|]; simpl; [| reflexivity].
  erewrite bind_load by (rewrite bind_Some; eexists; split; [mem_lookup | reflexivity]).
  destruct (acc_xy a !! j) as [n|] eqn:Hn; simpl; [| reflexivity].
  erewrite store_run; [| mem_lookup | reflexivity].
  rewrite decide_True by (by eapply lookup_lt_Some).
  eexists tt, _. split; [reflexivity |]. split; [reflexivity |].
  unfold accum_memory. simpl. apply map_eq. intros l.
  destruct (decide (l = l_pop)) as [-> |]; [by mem_lookup |].
  destruct (decide (l = l_ws)) as [-> |]; [by mem_lookup |].
  destruct (decide (l = l_new)) as [-> |]; by mem_lookup.
Qed.

Lemma accumulate_simulates (n_nodes n_points : nat) :
  simulates (accumulate xy w idx n_nodes n_points)
    (for_each_m (accumulate_point_m l_xy l_w l_idx l_pop l_ws l_new) (seq 0 n_points) tt
       (accum_memory base l_pop l_ws l_new
          (Accum (zeros_long n_nodes) (zeros_double n_nodes) (zeros_xy n_nodes))))
    (fun a' t m' => t = tt /\ m' = accum_memory base l_pop l_ws l_new a').
Proof.
  unfold accumulate.
  apply (for_each_simulates (accumulate_point xy w idx)
           (accumulate_point_m l_xy l_w l_idx l_pop l_ws l_new)
           (fun _ => tt) (accum_memory base l_pop l_ws l_new)).
  intros a i. apply accumulate_point_simulates.
Qed.

Lemma centroid_node_simulates (pop : list Z) (ws : list float) (ns : list point)
    (i : nat) :
  simulates (centroid_node pop ws ns i)
    (centroid_node_m l_pop l_ws l_new tt i
       (accum_memory base l_pop l_ws l_new (Accum pop ws ns)))
    (fun ns' t m' => t = tt /\ m' = accum_memory base l_pop l_ws l_new (Accum pop ws ns')).
Proof.
  destruct distinct_locations
    as (? & ? & ? & ? & ? & ? & ? & ? & ? & ? & ? & ?).
  unfold centroid_node, centroid_node_m, get.
  erewrite bind_load by (rewrite bind_Some; eexists; split; [mem_lookup | reflexivity]).
  destruct (pop !! i) as [c|]; simpl; [| reflexivity].
  destruct (0 <? c).
  - erewrite bind_load by (rewrite bind_Some; eexists; split; [mem_lookup | reflexivity]).
    destruct (ws !! i) as [s|]; simpl; [| reflexivity].
    erewrite bind_load by (rewrite bind_Some; eexists; split; [mem_lookup | reflexivity]).
    destruct (ns !! i) as [n|] eqn:Hn; simpl; [| reflexivity].
    erewrite store_run; [| mem_lookup | reflexivity].
    rewrite decide_True by (by eapply lookup_lt_Some).
    eexists tt, _. split; [reflexivity |]. split; [reflexivity |].
    unfold accum_memory. simpl. apply map_eq. intros l.
    destruct (decide (l = l_pop)) as [-> |]; [by mem_lookup |].
    destruct (decide (l = l_ws)) as [-> |]; [by mem_lookup |].
    destruct (decide (l = l_new)) as [-> |]; by mem_lookup.
  - erewrite store_run; [| mem_lookup | reflexivity].
    destruct (ns !! i) as [n|] eqn:Hn; simpl.
    + rewrite decide_True by (by eapply lookup_lt_Some).
      eexists tt, _. split; [reflexivity |]. split; [reflexivity |].
      unfold accum_memory. simpl. apply map_eq. intros l.
      destruct (decide (l = l_pop)) as [-> |]; [by mem_lookup |].
      destruct (decide (l = l_ws)) as [-> |]; [by mem_lookup |].
      destruct (decide (l = l_new)) as [-> |]; by mem_lookup.
    + rewrite decide_False; [reflexivity |].
      apply lookup_ge_None in Hn. simpl. lia.
Qed.

Lemma centroids_simulates (a : accum) (n_nodes : nat) :
  simulates (centroids a n_nodes)
    (for_each_m (centroid_node_m l_pop l_ws l_new) (seq 0 n_nodes) tt
       (accum_memory base l_pop l_ws l_new a))
    (fun ns' t m' =>
       t = tt /\
       m' = accum_memory base l_pop l_ws l_new
              (Accum (node_population a) (weight_sum a) ns')).
Proof.
  unfold centroids. destruct a as [pop ws ns]. simpl.
  apply (for_each_simulates (centroid_node pop ws)
           (centroid_node_m l_pop l_ws l_new) (fun _ => tt)
           (fun ns' => accum_memory base l_pop l_ws l_new (Accum pop ws ns'))).
  intros ns' i. apply centroid_node_simulates.
Qed.

End RoundInMemory.

Lemma displacement_simulates (orig new : list point) (l_orig l_new : nat) (m : memory)
    (n_nodes : nat) :
  m !! l_orig = Some (DoubleRows orig) ->
  m !! l_new = Some (DoubleRows new) ->
  simulates (displacement orig new n_nodes)
    (for_each_m (displacement_node_m l_orig l_new) (seq 0 n_nodes) fzero m)
    (fun d t m' => t = d /\ m' = m).
Proof.
  intros Ho Hn. unfold displacement.
  apply (for_each_simulates (displacement_node orig new)
           (displacement_node_m l_orig l_new) (fun d => d) (fun _ => m)).
  intros d i. unfold displacement_node, displacement_node_m, get.
  erewrite bind_load by (rewrite Ho; reflexivity).
  destruct (orig !! i) as [o|]; simpl; [| reflexivity].
  erewrite bind_load by (rewrite Hn; reflexivity).
  destruct (new !! i) as [n|]; simpl; [| reflexivity].
  eexists _, _. split; [reflexivity |]. done.
Qed.

Lemma bind_read {A B : Type} (proj : buffer -> option (list A)) (l : nat)
    (k : list A -> prog B) (m : memory) (c : list A) :
  m !! l ≫= proj = Some c -> (read proj l ≫= k) m = k c m.
Proof. intros Hl. unfold mbind at 1, prog_bind, read. rewrite Hl. reflexivity. Qed.

Lemma bind_copy {B : Type} (a : nat) (k : nat -> prog B) (m : memory)
    (rows : list point) :
  m !! a = Some (DoubleRows rows) -> rows <> [] ->
  (copy_m a ≫= k) m = k (fresh (dom m)) (<[fresh (dom m) := DoubleRows rows]> m).
Proof.
  intros Ha Hne. unfold mbind at 1, prog_bind, copy_m, mbind, prog_bind, read.
  rewrite Ha. destruct rows; [done | reflexivity].
Qed.

Lemma copy_no_rows (a : nat) (m : memory) :
  m !! a = Some (DoubleRows []) -> copy_m a m = (Err ValueError, m).
Proof. intros Ha. unfold copy_m, mbind, prog_bind, read. rewrite Ha. reflexivity. Qed.

Lemma bind_alloc {B : Type} (b : buffer) (k : nat -> prog B) (m : memory) :
  (alloc b ≫= k) m = k (fresh (dom m)) (<[fresh (dom m) := b]> m).
Proof. reflexivity. Qed.

Lemma bind_assoc_run {A B C : Type} (p : prog A) (k1 : A -> prog B) (k2 : B -> prog C)
    (m : memory) :
  ((p ≫= k1) ≫= k2) m = (p ≫= (fun a => k1 a ≫= k2)) m.
Proof.
  unfold mbind, prog_bind. destruct (p m) as [[a|e] m']; reflexivity.
Qed.

Lemma simulates_bind {A A' B B' : Type} (out : result A) (k : A -> result B)
    (p : prog A') (km : A' -> prog B') (m : memory)
    (mid : A -> A' -> memory -> Prop) (post : B -> B' -> memory -> Prop) :
  simulates out (p m) mid ->
  (forall a a' m', mid a a' m' -> simulates (k a) (km a' m') post) ->
  simulates (out ≫= k) ((p ≫= km) m) post.
Proof.
  intros Hp Hk. destruct out as [a|e]; simpl in *.
  - destruct Hp as (a' & m' & Hrun & Hmid).
    rewrite (bind_run _ _ _ _ _ Hrun). by apply Hk.
  - by apply bind_run_Err.
Qed.

Section CallInMemory.

Variable kd_query : list point -> list point -> option (list nat).
Variables (xy : list point) (w : list float).
Variables (l_xy l_w : nat).

Lemma round_simulates (n_nodes : nat) (node_xy : list point) (l_node : nat)
    (m : memory) :
  holds_inputs xy w l_xy l_w m ->
  m !! l_node = Some (DoubleRows node_xy) ->
  simulates (lloyd_round kd_query xy w n_nodes node_xy)
    (lloyd_round_m kd_query l_xy l_w n_nodes (length xy) l_node m)
    (fun r t m' =>
       holds_inputs xy w l_xy l_w m' /\
       m' !! t.1.1 = Some (DoubleRows (r_nodes r)) /\
       m' !! t.1.2 = Some (Indices (r_idx r)) /\
       t.2 = r_delta r).
Proof.
  intros [Hxy Hw] Hnode. unfold lloyd_round_m.
  destruct (decide (node_xy = [])) as [-> | Hsome].
  { apply bind_run_Err. by rewrite copy_no_rows. }
  rewrite (lloyd_round_some_node _ _ _ _ _ Hsome).
  rewrite (bind_copy _ _ _ _ Hnode Hsome).
  pose proof (is_fresh (dom m)) as Fo.
  set (l_o := fresh (dom m)) in *. set (m1 := <[l_o := DoubleRows node_xy]> m).
  assert (Dxy : l_xy ∈ dom m) by (apply elem_of_dom; eauto).
  assert (Dw : l_w ∈ dom m) by (apply elem_of_dom; eauto).
  assert (Dnode : l_node ∈ dom m) by (apply elem_of_dom; eauto).
  assert (Hxy1 : m1 !! l_xy = Some (DoubleRows xy)).
  { unfold m1. rewrite lookup_insert_ne by congruence. exact Hxy. }
  assert (Hw1 : m1 !! l_w = Some (Doubles w)).
  { unfold m1. rewrite lookup_insert_ne by congruence. exact Hw. }
  assert (Hnode1 : m1 !! l_node = Some (DoubleRows node_xy)).
  { unfold m1. rewrite lookup_insert_ne by congruence. exact Hnode. }
  unfold query_m. rewrite bind_assoc_run.
  erewrite bind_read by (rewrite Hnode1; reflexivity).
  rewrite bind_assoc_run.
  erewrite bind_read by (rewrite Hxy1; reflexivity).
  destruct (kd_query node_xy xy) as [idx|]; simpl; [| reflexivity].
  rewrite !bind_alloc.
  pose proof (is_fresh (dom m1)) as Fi.
  set (l_i := fresh (dom m1)) in *. set (m2 := <[l_i := Indices idx]> m1) in *.
  pose proof (is_fresh (dom m2)) as Fp.
  set (l_p := fresh (dom m2)) in *.
  set (m3 := <[l_p := Longs (zeros_long n_nodes)]> m2) in *.
  pose proof (is_fresh (dom m3)) as Fn.
  set (l_n := fresh (dom m3)) in *.
  set (m4 := <[l_n := DoubleRows (zeros_xy n_nodes)]> m3) in *.
  pose proof (is_fresh (dom m4)) as Fs.
  set (l_s := fresh (dom m4)) in *.
  assert (D1 : dom m1 = {[l_o]} ∪ dom m) by apply dom_insert_L.
  assert (D2 : dom m2 = {[l_i]} ∪ dom m1) by apply dom_insert_L.
  assert (D3 : dom m3 = {[l_p]} ∪ dom m2) by apply dom_insert_L.
  assert (D4 : dom m4 = {[l_n]} ∪ dom m3) by apply dom_insert_L.
  rewrite D4, D3, D2, D1 in Fs. rewrite D3, D2, D1 in Fn.
  rewrite D2, D1 in Fp. rewrite D1 in Fi. clear D1 D2 D3 D4.
  assert (Hne : l_xy <> l_w) by (intros E; rewrite E in Hxy; congruence).
  assert (Hfresh : (l_o ∉ dom m) /\ (l_i ∉ dom m) /\ (l_p ∉ dom m) /\
                   (l_n ∉ dom m) /\ (l_s ∉ dom m) /\ l_i <> l_o /\ l_p <> l_o /\ l_n <> l_o /\
                   l_s <> l_o /\ l_p <> l_i /\ l_n <> l_i /\ l_s <> l_i /\
                   l_n <> l_p /\ l_s <> l_p /\ l_s <> l_n).
  { clearbody l_o l_i l_p l_n l_s. clear -Fo Fi Fp Fn Fs. set_solver. }
  destruct Hfresh as (Go & Gi & Gp & Gn & Gs & ? & ? & ? & ? & ? & ? & ? & ? & ? & ?).
  assert (Hin : forall l, l ∈ dom m ->
            l <> l_o /\ l <> l_i /\ l <> l_p /\ l <> l_n /\ l <> l_s).
  { intros l Hl. repeat split; intros ->; contradiction. }
  destruct (Hin _ Dxy) as (? & ? & ? & ? & ?).
  destruct (Hin _ Dw) as (? & ? & ? & ? & ?).
  destruct (Hin _ Dnode) as (? & ? & ? & ? & ?).
  assert (Hdistinct : NoDup [l_xy; l_w; l_i; l_p; l_s; l_n]).
  { repeat (apply NoDup_cons; split); [| | | | | | apply NoDup_nil_2];
      rewrite ?not_elem_of_cons, ?elem_of_nil; repeat split; try congruence;
      try (intros []). }
  assert (Hxy2 : m2 !! l_xy = Some (DoubleRows xy)).
  { unfold m2. rewrite lookup_insert_ne by congruence. exact Hxy1. }
  assert (Hw2 : m2 !! l_w = Some (Doubles w)).
  { unfold m2. rewrite lookup_insert_ne by congruence. exact Hw1. }
  assert (Hidx2 : m2 !! l_i = Some (Indices idx)) by apply lookup_insert_eq.
  assert (Ho2 : m2 !! l_o = Some (DoubleRows node_xy)).
  { unfold m2. rewrite lookup_insert_ne by congruence. apply lookup_insert_eq. }
  assert (Hstart : <[l_s := Doubles (zeros_double n_nodes)]> m4
            = accum_memory m2 l_p l_s l_n
                (Accum (zeros_long n_nodes) (zeros_double n_nodes) (zeros_xy n_nodes))).
  { unfold accum_memory, m4, m3. simpl. apply map_eq. intros l.
    destruct (decide (l = l_p)) as [-> |]; [by mem_lookup |].
    destruct (decide (l = l_s)) as [-> |]; [by mem_lookup |].
    destruct (decide (l = l_n)) as [-> |]; by mem_lookup. }
  rewrite Hstart.
  eapply simulates_bind;
    [apply (accumulate_simulates xy w idx l_xy l_w l_i l_p l_s l_n Hdistinct m2 Hxy2 Hw2 Hidx2) |].
  intros a [] m' [_ ->].
  eapply simulates_bind;
    [apply (centroids_simulates l_xy l_w l_i l_p l_s l_n Hdistinct m2) |].
  intros new_xy [] m' [_ ->].
  eapply simulates_bind.
  { apply (displacement_simulates node_xy new_xy l_o l_n).
    - unfold accum_memory. rewrite !lookup_insert_ne by congruence. exact Ho2.
    - unfold accum_memory. rewrite !(lookup_insert_ne _ _ l_n) by congruence.
      apply lookup_insert_eq. }
  intros delta d m' [-> ->]. simpl.
  eexists _, _. split; [reflexivity |]. simpl. unfold holds_inputs, accum_memory.
  repeat split.
  - rewrite !lookup_insert_ne by congruence. exact Hxy2.
  - rewrite !lookup_insert_ne by congruence. exact Hw2.
  - rewrite !(lookup_insert_ne _ _ l_n) by congruence. apply lookup_insert_eq.
  - rewrite !lookup_insert_ne by congruence. exact Hidx2.
Qed.

End CallInMemory.

Lemma alloc_keeps_lookup (m : memory) (b v : buffer) (l : nat) :
  m !! l = Some v -> <[fresh (dom m) := b]> m !! l = Some v.
Proof.
  intros H. rewrite lookup_insert_ne; [exact H |].
  intros <-. apply (is_fresh (dom m)), elem_of_dom. eauto.
Qed.

Section WholeCallInMemory.

Variable kd_query : list point -> list point -> option (list nat).
Variables (xy : list point) (w : list float).
Variables (l_xy l_w : nat).

Lemma loop_simulates (fuel : nat) (max_iters : Z) (n_nodes : nat) (n_iters : Z)
    (rounds : nat) (node_xy : list point) (l_node : nat) (m : memory) :
  holds_inputs xy w l_xy l_w m ->
  m !! l_node = Some (DoubleRows node_xy) ->
  simulates (lloyd_loop kd_query xy w fuel max_iters n_nodes n_iters rounds node_xy)
    (lloyd_loop_m kd_query l_xy l_w fuel max_iters n_nodes (length xy) n_iters l_node m)
    (fun f t m' =>
       m' !! t.1.1 = Some (DoubleRows (f_nodes f)) /\
       m' !! t.1.2 = Some (Indices (f_idx f)) /\
       t.2 = f_converged f).
Proof.
  revert n_iters rounds node_xy l_node m.
  induction fuel as [|fuel IH]; intros n_iters rounds node_xy l_node m Hin Hnode;
    rewrite lloyd_loop_eq; simpl;
    (eapply simulates_bind; [by apply round_simulates |]);
    intros r [[l_new l_idx] delta] m' (Hin' & Hnew & Hidx & Hdelta);
    simpl in Hnew, Hidx, Hdelta; subst delta;
    (destruct (PrimFloat.eqb (r_delta r) fzero);
     [by eexists (_, _, _), _ |]);
    (destruct (n_iters >? max_iters); [by eexists (_, _, _), _ |]).
  - reflexivity.
  - by apply IH.
Qed.

(** The call on buffers returns what the pure function returns: the same
    error, or the locations of two buffers that hold the returned node
    array and assignment, with the same flag. *)
Theorem lloyd_m_simulates (node_xy : list point) (l_node : nat) (max_iters : Z)
    (m : memory) :
  m !! l_xy = Some (DoubleRows xy) ->
  m !! l_w = Some (Doubles w) ->
  m !! l_node = Some (DoubleRows node_xy) ->
  simulates (lloyd kd_query xy w node_xy max_iters)
    (lloyd_m kd_query l_xy l_w l_node max_iters m)
    (fun res t m' =>
       m' !! t.1.1 = Some (DoubleRows res.1.1) /\
       m' !! t.1.2 = Some (Indices res.1.2) /\
       t.2 = res.2).
Proof.
  intros Hxy Hw Hnode. unfold lloyd, lloyd_m, lloyd_frame.
  erewrite bind_read by (rewrite Hnode; reflexivity).
  erewrite bind_read by (rewrite Hxy; reflexivity).
  rewrite !bind_alloc.
  set (l_1 := fresh (dom m)).
  set (m1 := <[l_1 := Indices (replicate (length xy) 0%nat)]> m).
  set (l_2 := fresh (dom m1)).
  set (m2 := <[l_2 := Longs (zeros_long (length node_xy))]> m1).
  assert (Hkeep : forall l b, m !! l = Some b -> m2 !! l = Some b).
  { intros l b Hl. by do 2 apply alloc_keeps_lookup. }
  pose proof (loop_simulates (Z.to_nat (max_iters + 1)) max_iters (length node_xy)
                0 0 node_xy l_node m2
                (conj (Hkeep _ _ Hxy) (Hkeep _ _ Hw)) (Hkeep _ _ Hnode)) as Hloop.
  destruct (lloyd_loop kd_query xy w (Z.to_nat (max_iters + 1)) max_iters
              (length node_xy) 0 0 node_xy) as [f|e]; simpl in *; [| exact Hloop].
  exact Hloop.
Qed.

End WholeCallInMemory.


(** The pair example run in memory: the call returns two new locations
    that hold the node (1, 0) and the assignment, and the caller's three
    buffers are as they were. *)
Lemma lloyd_m_pair_run :
  exists l_nodes l_idx,
    (lloyd_m exhaustive_query 0 1 2 10 Examples.pair_memory).1
      = Ok (l_nodes, l_idx, true) /\
    l_nodes <> 2%nat /\
    (lloyd_m exhaustive_query 0 1 2 10 Examples.pair_memory).2 !! l_nodes
      = Some (DoubleRows [(1, 0)]%float) /\
    (lloyd_m exhaustive_query 0 1 2 10 Examples.pair_memory).2 !! l_idx
      = Some (Indices [0; 0]%nat).
Proof.
  vm_compute. eexists _, _. repeat split. discriminate.
Qed.

Lemma lloyd_preserves_inputs_witness :
  (lloyd_m exhaustive_query 0 1 2 10 Examples.pair_memory).2 !! 0%nat
    = Some (DoubleRows Examples.pair_xy) /\
  (lloyd_m exhaustive_query 0 1 2 10 Examples.pair_memory).2 !! 1%nat
    = Some (Doubles Examples.pair_w) /\
  (lloyd_m exhaustive_query 0 1 2 10 Examples.pair_memory).2 !! 2%nat
    = Some (DoubleRows Examples.pair_node).
Proof.
  destruct (lloyd_preserves_inputs exhaustive_query 0 1 2 10 Examples.pair_memory
              (DoubleRows Examples.pair_xy) (Doubles Examples.pair_w)
              (DoubleRows Examples.pair_node))
    as (Hxy & Hw & Hnodes & _); [reflexivity | reflexivity | reflexivity |].
  split; [exact Hxy |]. split; [exact Hw | exact Hnodes].
Defined.

(** ** Further properties of the call *)

Section MoreOfTheCall.

Variable kd_query : list point -> list point -> option (list nat).
Variable xy : list point.
Variable w : list float.

(** The returned node array has as many rows as the initial one. *)
Theorem returned_node_count (node_xy : list point) (max_iters : Z)
    (ns : list point) (idx : list nat) (c : bool) :
  lloyd kd_query xy w node_xy max_iters = Ok (ns, idx, c) ->
  length ns = length node_xy.
Proof.
  intros H. apply lloyd_Ok in H as (f & Hf & <- & _). unfold lloyd_frame in Hf.
  apply lloyd_loop_Ok in Hf as (k & _ & _ & _ & _ & Hlast & _); [| reflexivity].
  exact (round_nodes_length _ _ _ _ _ _ Hlast).
Qed.

(** Whatever the flag, the returned nodes are those of the returned
    assignment: a node that owns points is at the weighted centroid of
    these points, a node that owns none is at the origin. *)
Theorem returned_nodes_fit_assignment (node_xy : list point) (max_iters : Z)
    (ns : list point) (idx : list nat) (c : bool) (j : nat) :
  lloyd kd_query xy w node_xy max_iters = Ok (ns, idx, c) ->
  (j < length node_xy)%nat ->
  (members idx j (length xy) <> [] /\
     ns !! j = Some (weighted_centroid xy w (members idx j (length xy)))) \/
  (members idx j (length xy) = [] /\ ns !! j = Some (fzero, fzero)).
Proof.
  intros H Hj. apply lloyd_Ok in H as (f & Hf & <- & <- & _). unfold lloyd_frame in Hf.
  apply lloyd_loop_Ok in Hf as (k & _ & _ & _ & _ & Hlast & _); [| reflexivity].
  exact (round_node _ _ _ _ _ _ j Hlast Hj).
Qed.

(** A call that returns [converged = true] returns no NaN and no infinity
    among the node coordinates. *)
Theorem converged_nodes_finite (node_xy : list point) (max_iters : Z)
    (ns : list point) (idx : list nat) :
  lloyd kd_query xy w node_xy max_iters = Ok (ns, idx, true) ->
  Forall finite_point ns.
Proof.
  intros H. apply lloyd_Ok in H as (f & Hf & <- & _ & Hc). unfold lloyd_frame in Hf.
  apply lloyd_loop_Ok in Hf as (k & _ & _ & _ & Horig & Hlast & Hconv & _);
    [| reflexivity].
  pose proof (round_nodes_length _ _ _ _ _ _ Hlast) as Hlen. simpl in Hlen.
  pose proof (round_delta _ _ _ _ _ _ Horig Hlast) as Hd. simpl in Hd.
  apply (sq_displacement_zero_finite (f_orig f)); [congruence |].
  rewrite <- Hd, <- Hconv. exact Hc.
Qed.

(** A round completes exactly when there is a node to copy, the index
    answers, and the loop finds, for every point, a node index inside the
    node arrays and a weight. *)
Theorem round_completes_iff (n_nodes : nat) (node_xy : list point) :
  length node_xy = n_nodes ->
  (exists r, lloyd_round kd_query xy w n_nodes node_xy = Ok r) <->
  (node_xy <> [] /\
   exists idx, kd_query node_xy xy = Some idx /\
               usable_arrays idx w (length xy) n_nodes).
Proof.
  intros Hlen. split.
  - intros [r H]. apply lloyd_round_Ok in H as (a & Hq & Ha & _ & _ & Hne).
    split; [exact Hne |]. exists (r_idx r). split; [exact Hq |].
    exact (accumulate_in_range _ _ _ _ _ _ Ha).
  - intros (Hne & idx & Hq & Huse). by eapply lloyd_round_usable.
Qed.

Lemma iterate_rounds_snoc (k n_nodes : nat) (node_xy : list point) :
  iterate_rounds kd_query xy w (S k) n_nodes node_xy =
  ns ← iterate_rounds kd_query xy w k n_nodes node_xy;
  r ← lloyd_round kd_query xy w n_nodes ns;
  Ok (r_nodes r).
Proof.
  revert node_xy. induction k as [|k IH]; intros node_xy.
  - simpl. destruct (lloyd_round kd_query xy w n_nodes node_xy); reflexivity.
  - change (iterate_rounds kd_query xy w (S (S k)) n_nodes node_xy)
      with (r ← lloyd_round kd_query xy w n_nodes node_xy;
            iterate_rounds kd_query xy w (S k) n_nodes (r_nodes r)).
    change (iterate_rounds kd_query xy w (S k) n_nodes node_xy)
      with (r ← lloyd_round kd_query xy w n_nodes node_xy;
            iterate_rounds kd_query xy w k n_nodes (r_nodes r)).
    destruct (lloyd_round kd_query xy w n_nodes node_xy) as [r|e];
      [| reflexivity].
    cbn [mbind result_bind]. apply IH.
Qed.

(** The call is the round applied over and over, a full step each time:
    the returned nodes are the initial nodes after [k] rounds, for some
    [k] of at least one and, under a budget [0 <= max_iters], at most
    [max_iters + 2]. *)
Theorem call_is_iterated_round (node_xy : list point) (max_iters : Z)
    (ns : list point) (idx : list nat) (c : bool) :
  lloyd kd_query xy w node_xy max_iters = Ok (ns, idx, c) ->
  exists k : nat,
    (0 < k)%nat /\
    iterate_rounds kd_query xy w k (length node_xy) node_xy = Ok ns /\
    (0 <= max_iters < 2 ^ 63 - 1 -> Z.of_nat k <= max_iters + 2).
Proof.
  intros H. apply lloyd_Ok in H as (f & Hf & <- & _). unfold lloyd_frame in Hf.
  apply lloyd_loop_Ok in Hf
    as (k & _ & _ & Hiter & _ & Hlast & _ & _ & _ & Hcount); [| reflexivity].
  exists (S k). split; [lia |]. split.
  - rewrite iterate_rounds_snoc, Hiter. cbn [mbind result_bind].
    rewrite Hlast. reflexivity.
  - intros Hmax. destruct Hcount as [Hn Hcases]; [lia | lia |].
    destruct Hcases; lia.
Qed.

(** With a negative budget the call is its first round: it returns the
    nodes and the assignment of that round, and the flag says whether the
    round moved nothing. *)
Theorem negative_budget_single_round (node_xy : list point) (max_iters : Z) :
  max_iters < 0 ->
  lloyd kd_query xy w node_xy max_iters =
  r ← lloyd_round kd_query xy w (length node_xy) node_xy;
  Ok (r_nodes r, r_idx r, PrimFloat.eqb (r_delta r) fzero).
Proof.
  intros Hneg. unfold lloyd, lloyd_frame. rewrite lloyd_loop_eq.
  destruct (lloyd_round kd_query xy w (length node_xy) node_xy) as [r|e];
    simpl; [| reflexivity].
  destruct (PrimFloat.eqb (r_delta r) fzero); [reflexivity |].
  destruct (Z.gtb_spec 0 max_iters); [reflexivity | lia].
Qed.

Lemma lloyd_loop_larger_budget (fuel fuel' : nat) (max_iters max_iters' : Z)
    (n_nodes : nat) (n_iters : Z) (rounds : nat) (node_xy : list point) (f : frame) :
  lloyd_loop kd_query xy w fuel max_iters n_nodes n_iters rounds node_xy = Ok f ->
  f_converged f = true ->
  max_iters <= max_iters' -> (fuel <= fuel')%nat ->
  lloyd_loop kd_query xy w fuel' max_iters' n_nodes n_iters rounds node_xy = Ok f.
Proof.
  revert fuel' n_iters rounds node_xy.
  induction fuel as [|fuel IH]; intros fuel' n_iters rounds node_xy H Hc Hmax Hfuel;
    rewrite lloyd_loop_eq in H; rewrite lloyd_loop_eq;
    destruct (lloyd_round kd_query xy w n_nodes node_xy) as [r|e]; try discriminate;
    simpl in *;
    (destruct (PrimFloat.eqb (r_delta r) fzero); [exact H |]);
    (destruct (Z.gtb_spec n_iters max_iters) as [Hgt | Hle];
     [injection H as <-; discriminate |]);
    try discriminate.
  destruct (Z.gtb_spec n_iters max_iters'); [lia |].
  destruct fuel' as [|fuel']; [lia |]. apply IH; [exact H | exact Hc | lia | lia].
Qed.

(** A larger budget does not change a converged result. *)
Theorem larger_budget_same_result (node_xy : list point) (max_iters max_iters' : Z)
    (ns : list point) (idx : list nat) :
  lloyd kd_query xy w node_xy max_iters = Ok (ns, idx, true) ->
  max_iters <= max_iters' ->
  lloyd kd_query xy w node_xy max_iters' = Ok (ns, idx, true).
Proof.
  intros H Hmax. apply lloyd_Ok in H as (f & Hf & Hns & Hidx & Hc).
  apply lloyd_Ok. exists f. split; [| done]. unfold lloyd_frame in *.
  eapply lloyd_loop_larger_budget; [exact Hf | exact Hc | exact Hmax | lia].
Qed.

End MoreOfTheCall.

(** ** The weights the call reads *)

Lemma for_each_ext {S : Type} (body1 body2 : S -> nat -> result S) (range : list nat)
    (s : S) :
  (forall s' i, i ∈ range -> body1 s' i = body2 s' i) ->
  for_each body1 range s = for_each body2 range s.
Proof.
  revert s. induction range as [|i range IH]; intros s H; [reflexivity |].
  simpl. rewrite H by left. destruct (body2 s i) as [s'|e]; simpl; [| reflexivity].
  apply IH. intros s'' i' Hi'. apply H. by right.
Qed.

Section WeightsRead.

Variable kd_query : list point -> list point -> option (list nat).
Variable xy : list point.
Variables w w' : list float.

Hypothesis same_weights : forall i, (i < length xy)%nat -> w !! i = w' !! i.

Lemma lloyd_round_weights (n_nodes : nat) (node_xy : list point) :
  lloyd_round kd_query xy w n_nodes node_xy = lloyd_round kd_query xy w' n_nodes node_xy.
Proof.
  unfold lloyd_round. destruct (kd_query node_xy xy) as [idx|]; simpl; [| reflexivity].
  assert (E : accumulate xy w idx n_nodes (length xy)
              = accumulate xy w' idx n_nodes (length xy)).
  { unfold accumulate. apply for_each_ext. intros a i Hi.
    apply elem_of_seq in Hi. unfold accumulate_point, get.
    rewrite same_weights by lia. reflexivity. }
  rewrite E. reflexivity.
Qed.

Lemma lloyd_loop_weights (fuel : nat) (max_iters : Z) (n_nodes : nat) (n_iters : Z)
    (rounds : nat) (node_xy : list point) :
  lloyd_loop kd_query xy w fuel max_iters n_nodes n_iters rounds node_xy
  = lloyd_loop kd_query xy w' fuel max_iters n_nodes n_iters rounds node_xy.
Proof.
  revert n_iters rounds node_xy.
  induction fuel as [|fuel IH]; intros n_iters rounds node_xy;
    rewrite !lloyd_loop_eq, lloyd_round_weights;
    destruct (lloyd_round kd_query xy w' n_nodes node_xy) as [r|e]; simpl;
    try reflexivity;
    destruct (PrimFloat.eqb (r_delta r) fzero); try reflexivity;
    destruct (n_iters >? max_iters); try reflexivity.
  apply IH.
Qed.

(** The call reads the first [n_points] weights only: two weight arrays
    that agree there give the same result. *)
Theorem only_first_weights_read (node_xy : list point) (max_iters : Z) :
  lloyd kd_query xy w node_xy max_iters = lloyd kd_query xy w' node_xy max_iters.
Proof. unfold lloyd, lloyd_frame. rewrite lloyd_loop_weights. reflexivity. Qed.

End WeightsRead.

(** ** The population counts *)

Lemma sum_longs_insert (l : list Z) (j : nat) (c : Z) :
  l !! j = Some c -> sum_longs (<[j := c + 1]> l) = sum_longs l + 1.
Proof.
  revert j. induction l as [|x l IH]; intros [|j] H; try discriminate; simpl in *.
  - injection H as ->. lia.
  - rewrite (IH j H). lia.
Qed.

Lemma sum_longs_zeros (n : nat) : sum_longs (zeros_long n) = 0.
Proof. induction n as [|n IH]; [reflexivity |]. simpl. exact IH. Qed.

(** After the accumulation loop every point has been counted once: the
    count of a node is the number of points assigned to it, and the counts
    add up to the number of points. *)
Theorem population_counts_points (xy : list point) (w : list float) (idx : list nat)
    (n_nodes n_points : nat) (a : accum) :
  accumulate xy w idx n_nodes n_points = Ok a ->
  sum_longs (node_population a) = Z.of_nat n_points /\
  forall j, (j < n_nodes)%nat ->
    node_population a !! j = Some (Z.of_nat (length (members idx j n_points))).
Proof.
  intros H. split.
  - revert a H. unfold accumulate. induction n_points as [|k IH]; intros a H.
    + injection H as <-. apply sum_longs_zeros.
    + apply for_each_snoc in H as (a0 & H0 & Hstep).
      apply accumulate_point_Ok in Hstep
        as (j & c & wi & s & p & n & _ & Hc & _ & _ & _ & _ & ->). simpl.
      rewrite (sum_longs_insert _ _ _ Hc), (IH a0 H0). lia.
  - intros j Hj. apply accumulate_upto in H as (_ & _ & _ & Hall).
    exact (proj1 (Hall j Hj)).
Qed.

(** ** No points *)

Section NoPoints.

Variable kd_query : list point -> list point -> option (list nat).
Variable w : list float.

Lemma round_no_points (n_nodes : nat) (node_xy : list point) :
  node_xy <> [] ->
  length node_xy = n_nodes ->
  kd_query node_xy [] = Some [] ->
  lloyd_round kd_query [] w n_nodes node_xy
  = Ok (RoundOut (zeros_xy n_nodes) [] (sq_displacement node_xy (zeros_xy n_nodes))).
Proof.
  intros Hne Hn Hq.
  destruct (lloyd_round_usable kd_query [] w n_nodes node_xy [] Hne Hn Hq) as [r Hr].
  { intros i Hi. simpl in Hi. lia. }
  pose proof (round_nodes_length _ _ _ _ _ _ Hr) as Hlen.
  pose proof (round_delta _ _ _ _ _ _ Hn Hr) as Hd.
  assert (Hidx : r_idx r = []).
  { apply lloyd_round_Ok in Hr as (a & Hq' & _). congruence. }
  assert (Hns : r_nodes r = zeros_xy n_nodes).
  { apply (list_eq_same_length _ _ n_nodes); [apply length_replicate | exact Hlen |].
    intros j x y Hj Hx Hy. apply lookup_replicate in Hy as [-> _].
    destruct (round_node _ _ _ _ _ _ j Hr Hj) as [(Hmem & _) | (_ & Hnode)].
    - rewrite Hidx in Hmem. by destruct Hmem.
    - congruence. }
  rewrite Hr. destruct r as [ns idx d]. simpl in *. congruence.
Qed.

Lemma zeros_xy_length (n : nat) : length (zeros_xy n) = n.
Proof. apply length_replicate. Qed.

Lemma zeros_xy_finite (n : nat) : Forall finite_point (zeros_xy n).
Proof. apply Forall_replicate. split; reflexivity. Qed.

Lemma zeros_xy_some (n : nat) : (0 < n)%nat -> zeros_xy n <> [].
Proof. destruct n; [lia | discriminate]. Qed.

(** With at least one node, no points and a budget [0 <= max_iters], the
    call sends every node to the origin and returns [converged = true]
    with an empty assignment, provided the index answers the empty
    batch. *)
Theorem no_points_all_origin (node_xy : list point) (max_iters : Z) :
  node_xy <> [] ->
  kd_query node_xy [] = Some [] ->
  kd_query (zeros_xy (length node_xy)) [] = Some [] ->
  0 <= max_iters ->
  lloyd kd_query [] w node_xy max_iters
  = Ok (zeros_xy (length node_xy), [], true).
Proof.
  intros Hne Hq Hq0 Hmax. unfold lloyd, lloyd_frame.
  rewrite lloyd_loop_eq, (round_no_points _ _ Hne eq_refl Hq).
  set (d := sq_displacement node_xy (zeros_xy (length node_xy))).
  cbn [mbind result_bind r_delta r_nodes r_idx].
  destruct (PrimFloat.eqb d fzero); [reflexivity |].
  destruct (Z.gtb_spec 0 max_iters); [lia |].
  destruct (Z.to_nat (max_iters + 1)) as [|fuel] eqn:F; [lia |].
  rewrite lloyd_loop_eq.
  assert (Hpos : (0 < length node_xy)%nat) by (destruct node_xy; [done | simpl; lia]).
  rewrite (round_no_points _ _ (zeros_xy_some _ Hpos) (zeros_xy_length _) Hq0).
  rewrite (sq_displacement_self _ (zeros_xy_finite _)).
  reflexivity.
Qed.

End NoPoints.

(** ** The displacement *)

Lemma sq_displacement_from_not_negative (acc : float) (ons : list (point * point)) :
  not_negative acc ->
  not_negative
    (foldl (fun d on =>
              let dx := (fst (fst on) - fst (snd on))%float in
              let dy := (snd (fst on) - snd (snd on))%float in
              (d + (dx * dx + dy * dy))%float) acc ons).
Proof.
  revert acc. induction ons as [|on ons IH]; intros acc Hacc; [exact Hacc |].
  simpl. apply IH. apply fadd_not_negative; [exact Hacc |].
  apply fadd_not_negative; apply fmul_self_not_negative.
Qed.

Lemma sq_displacement_finite_orig (acc : float) (ons : list (point * point)) :
  finite
    (foldl (fun d on =>
              let dx := (fst (fst on) - fst (snd on))%float in
              let dy := (snd (fst on) - snd (snd on))%float in
              (d + (dx * dx + dy * dy))%float) acc ons) = true ->
  Forall (fun on => finite_point (fst on)) ons.
Proof.
  revert acc. induction ons as [|[o n] ons IH]; intros acc H; simpl in H.
  - constructor.
  - pose proof (IH _ H) as Hrest.
    apply sq_displacement_finite_from in H as [H _].
    apply finite_add in H as [_ H]. apply finite_add in H as [Hx Hy].
    apply finite_mul in Hx as [Hx _]. apply finite_sub in Hx as [Hx _].
    apply finite_mul in Hy as [Hy _]. apply finite_sub in Hy as [Hy _].
    constructor; [split; assumption | exact Hrest].
Qed.

Section Displacement.

Variable kd_query : list point -> list point -> option (list nat).
Variable xy : list point.
Variable w : list float.

(** The displacement that a round computes and the loop tests is never
    below zero: it is a zero, a positive number, [+inf] or NaN. *)
Theorem displacement_never_negative (n_nodes : nat) (node_xy : list point)
    (r : round_out) :
  length node_xy = n_nodes ->
  lloyd_round kd_query xy w n_nodes node_xy = Ok r ->
  not_negative (r_delta r) /\ PrimFloat.ltb (r_delta r) fzero = false.
Proof.
  intros Hlen H. rewrite (round_delta _ _ _ _ _ _ Hlen H).
  assert (Hnn : not_negative (sq_displacement node_xy (r_nodes r))).
  { apply sq_displacement_from_not_negative. exact I. }
  split; [exact Hnn | by apply not_negative_ltb].
Qed.

(** A round that starts from a node with a NaN or an infinite coordinate
    does not test as converged: a zero displacement comes from finite
    starting nodes only. *)
Theorem zero_displacement_from_finite_nodes (n_nodes : nat) (node_xy : list point)
    (r : round_out) :
  length node_xy = n_nodes ->
  lloyd_round kd_query xy w n_nodes node_xy = Ok r ->
  PrimFloat.eqb (r_delta r) fzero = true ->
  Forall finite_point node_xy.
Proof.
  intros Hlen H Hz. pose proof (round_nodes_length _ _ _ _ _ _ H) as Hlen'.
  rewrite (round_delta _ _ _ _ _ _ Hlen H) in Hz.
  apply eqb_zero_finite, sq_displacement_finite_orig in Hz.
  rewrite Forall_lookup in Hz. apply Forall_lookup. intros i o Ho.
  destruct (lookup_lt_is_Some_2 (r_nodes r) i) as [n Hn].
  { rewrite Hlen', <- Hlen. by eapply lookup_lt_Some. }
  apply (Hz i (o, n)). apply lookup_zip_with_Some. exists o, n. done.
Qed.

End Displacement.

(** ** Concrete runs of the further properties *)

Lemma lloyd_round_budget_witness :
  f_n_iters (Frame [(0.5, 0); (3.5, 0)]%float [0; 0; 1; 1; 1; 1]%nat false 1
               [(0, 0); (3, 0)]%float 0.5%float 2)
  = Z.of_nat 2 - 1 /\
  Z.of_nat 2 <= 0 + 2 /\
  (false = false -> Z.of_nat 2 = 0 + 2).
Proof.
  apply (lloyd_round_budget exhaustive_query line_xy line_w line_nodes 0
           (Frame [(0.5, 0); (3.5, 0)]%float [0; 0; 1; 1; 1; 1]%nat false 1
              [(0, 0); (3, 0)]%float 0.5%float 2)).
  - lia.
  - vm_compute. reflexivity.
Defined.


(** A budget of -1 on the line example: one round, nodes moved, flag false. *)
Lemma negative_budget_single_round_witness :
  lloyd exhaustive_query line_xy line_w line_nodes (-1)
  = Ok ([(0, 0); (3, 0)]%float, [0; 1; 1; 1; 1; 1]%nat, false).
Proof.
  rewrite (negative_budget_single_round exhaustive_query line_xy line_w line_nodes (-1))
    by lia.
  vm_compute. reflexivity.
Defined.

Lemma returned_node_count_witness :
  length [(0.5, 0); (3.5, 0)]%float = length line_nodes.
Proof.
  apply (returned_node_count exhaustive_query line_xy line_w line_nodes 0
           [(0.5, 0); (3.5, 0)]%float [0; 0; 1; 1; 1; 1]%nat false).
  vm_compute. reflexivity.
Defined.

Lemma returned_nodes_fit_assignment_witness :
  (members [0; 0; 1; 1; 1; 1]%nat 1 (length line_xy) <> [] /\
     [(0.5, 0); (3.5, 0)]%float !! 1%nat
     = Some (weighted_centroid line_xy line_w
               (members [0; 0; 1; 1; 1; 1]%nat 1 (length line_xy)))) \/
  (members [0; 0; 1; 1; 1; 1]%nat 1 (length line_xy) = [] /\
     [(0.5, 0); (3.5, 0)]%float !! 1%nat = Some (fzero, fzero)).
Proof.
  apply (returned_nodes_fit_assignment exhaustive_query line_xy line_w line_nodes 0
           [(0.5, 0); (3.5, 0)]%float [0; 0; 1; 1; 1; 1]%nat false 1).
  - vm_compute. reflexivity.
  - simpl. lia.
Defined.

Lemma converged_nodes_finite_witness : Forall finite_point [(1, 0)]%float.
Proof.
  apply (converged_nodes_finite exhaustive_query pair_xy pair_w pair_node 10
           [(1, 0)]%float [0; 0]%nat).
  vm_compute. reflexivity.
Defined.

Lemma round_completes_iff_witness :
  (exists r, lloyd_round exhaustive_query line_xy line_w 2 line_nodes = Ok r) <->
  (line_nodes <> [] /\
   exists idx, exhaustive_query line_nodes line_xy = Some idx /\
               usable_arrays idx line_w (length line_xy) 2).
Proof.
  apply (round_completes_iff exhaustive_query line_xy line_w 2 line_nodes).
  reflexivity.
Defined.

Lemma call_is_iterated_round_witness :
  exists k : nat,
    (0 < k)%nat /\
    iterate_rounds exhaustive_query pair_xy pair_w k (length pair_node) pair_node
      = Ok [(1, 0)]%float /\
    (0 <= 10 < 2 ^ 63 - 1 -> Z.of_nat k <= 10 + 2).
Proof.
  apply (call_is_iterated_round exhaustive_query pair_xy pair_w pair_node 10
           [(1, 0)]%float [0; 0]%nat true).
  vm_compute. reflexivity.
Defined.

Lemma larger_budget_same_result_witness :
  lloyd exhaustive_query pair_xy pair_w pair_node 20
  = Ok ([(1, 0)]%float, [0; 0]%nat, true).
Proof.
  apply (larger_budget_same_result exhaustive_query pair_xy pair_w pair_node 10 20).
  - vm_compute. reflexivity.
  - lia.
Defined.

Lemma only_first_weights_read_witness :
  lloyd exhaustive_query pair_xy pair_w pair_node 3
  = lloyd exhaustive_query pair_xy [1; 1; 7]%float pair_node 3.
Proof.
  apply (only_first_weights_read exhaustive_query pair_xy pair_w [1; 1; 7]%float).
  intros [|[|i]] Hi; [reflexivity | reflexivity | simpl in Hi; lia].
Defined.

Lemma population_counts_points_witness :
  sum_longs [1; 5] = Z.of_nat 6 /\
  forall j, (j < 2)%nat ->
    [1; 5] !! j = Some (Z.of_nat (length (members [0; 1; 1; 1; 1; 1]%nat j 6))).
Proof.
  apply (population_counts_points line_xy line_w [0; 1; 1; 1; 1; 1]%nat 2 6
           (Accum [1; 5] [1; 5]%float [(0, 0); (15, 0)]%float)).
  vm_compute. reflexivity.
Defined.

Lemma no_points_all_origin_witness :
  lloyd exhaustive_query [] [] [(3, 4)]%float 2 = Ok (zeros_xy 1, [], true).
Proof.
  apply (no_points_all_origin exhaustive_query [] [(3, 4)]%float 2).
  - discriminate.
  - vm_compute. reflexivity.
  - vm_compute. reflexivity.
  - lia.
Defined.

Lemma lloyd_m_simulates_witness :
  simulates (lloyd exhaustive_query pair_xy pair_w pair_node 10)
    (lloyd_m exhaustive_query 0 1 2 10 pair_memory)
    (fun res t m' =>
       m' !! t.1.1 = Some (DoubleRows res.1.1) /\
       m' !! t.1.2 = Some (Indices res.1.2) /\
       t.2 = res.2).
Proof.
  apply (lloyd_m_simulates exhaustive_query pair_xy pair_w 0 1 pair_node 2 10
           pair_memory); reflexivity.
Defined.

Lemma displacement_never_negative_witness :
  not_negative 4%float /\ PrimFloat.ltb 4%float fzero = false.
Proof.
  apply (displacement_never_negative exhaustive_query line_xy line_w 2 line_nodes
           (RoundOut [(0, 0); (3, 0)]%float [0; 1; 1; 1; 1; 1]%nat 4%float)).
  - reflexivity.
  - vm_compute. reflexivity.
Defined.

Lemma zero_displacement_from_finite_nodes_witness :
  Forall finite_point [(1, 0)]%float.
Proof.
  apply (zero_displacement_from_finite_nodes exhaustive_query pair_xy pair_w 1
           [(1, 0)]%float (RoundOut [(1, 0)]%float [0; 0]%nat fzero)).
  - reflexivity.
  - vm_compute. reflexivity.
  - reflexivity.
Defined.
